(** * Synapse: auth-chain debugging traversal and the un-partial-stated stream

    A shallow embedding of
      - [synapse/_scripts/debug_state_res.py] ([node], [dump_auth_chains]) and
      - [synapse/replication/tcp/streams/partial_state.py]
        ([UnPartialStatedRoomStream]),
    with the properties the specification states about them. *)

From Stdlib Require Import ZArith Lia.
From stdpp Require Import gmap strings list fin_maps relations.

#[global] Set Warnings "-clear-no-such-hyp".

(** ** Python values shared by both files *)

(** The exceptions the modelled code can raise. *)
Inductive exn :=
  | AssertionError
  | IndexError
  | FrozenInstanceError
  | AttributeError
  | TypeError.

(** What running a piece of Python gives: a value, an exception, or, for the
    fuel-bounded rendering of a [while] loop, no answer within the fuel. *)
Inductive outcome (A : Type) :=
  | Returned (a : A)
  | Raised (e : exn)
  | OutOfFuel.
Arguments Returned {A} a.
Arguments Raised {A} e.
Arguments OutOfFuel {A}.

(** Python's [l[z]] for an [int] index: negative indices count from the end,
    anything outside [-len, len) raises [IndexError] (here [None]). *)
Definition py_index {A} (l : list A) (z : Z) : option A :=
  if decide (0 ≤ z)%Z then l !! Z.to_nat z
  else if decide (- Z.of_nat (length l) ≤ z)%Z
       then l !! Z.to_nat (Z.of_nat (length l) + z)
       else None.

Module DebugStateRes.

(** The part of [EventBase] the script reads. *)
Record EventBase := {
  event_id : string;
  type : string;
  auth_event_ids : list string;
}.

(** [hs.get_datastores().main], seen through
    [get_event(eid, allow_none=True)]: a missing event is [None]. *)
Abbreviation DataStore := (gmap string EventBase).

Definition get_event (store : DataStore) (eid : string) : option EventBase :=
  store !! eid.

(** A Python [dict] from event ids to [int]s.  Iteration follows insertion
    order and assigning to a present key keeps its place, so the dict is kept
    as an association list with one entry per key. *)
Abbreviation pydict := (list (string * Z)).

Fixpoint dict_lookup (d : pydict) (k : string) : option Z :=
  match d with
  | [] => None
  | (k', v) :: d' => if decide (k' = k) then Some v else dict_lookup d' k
  end.

(** [d[k] = v] *)
Fixpoint dict_set (d : pydict) (k : string) (v : Z) : pydict :=
  match d with
  | [] => [(k, v)]
  | (k', v') :: d' =>
    if decide (k' = k) then (k, v) :: d' else (k', v') :: dict_set d' k v
  end.

(** The loop state of [dump_auth_chains]: [seen] is a [defaultdict(int)],
    [edges] a [set] of pairs, and [stack] the list of [[event, index]] entries.
    The head of [stack] is Python's [stack[-1]]. *)
Record dfs_state := {
  seen : pydict;
  edges : gset (string * string);
  stack : list (string * nat);
}.

(** [seen.get(eid, 0)]; also the value [seen[eid]] reads on a defaultdict. *)
Definition seen_get (s : pydict) (eid : string) : Z :=
  default 0%Z (dict_lookup s eid).

(** [bitmask = 1 << i] *)
Definition bitmask_of (i : nat) : Z := Z.shiftl 1 (Z.of_nat i).

(** One pass through the body of [while stack:] (lines 97-117), entered with a
    non-empty stack. *)
Definition loop_body (store : DataStore) (bitmask : Z) (st : dfs_state)
  : exn + dfs_state :=
  match stack st with
  | [] => inr st
  | (eid, pindex) :: rest =>
    match get_event store eid with
    | None => inl AssertionError
    | Some event =>
      if decide (length (auth_event_ids event) ≤ pindex)%nat then
        inr {| seen := dict_set (seen st) eid
                         (Z.lor (seen_get (seen st) eid) bitmask);
               edges := edges st;
               stack := rest |}
      else
        match auth_event_ids event !! pindex with
        | None => inl IndexError
        | Some pid =>
          let edges' := {[ (eid, pid) ]} ∪ edges st in
          if decide (Z.land (seen_get (seen st) pid) bitmask ≠ 0%Z) then
            inr {| seen := seen st;
                   edges := edges';
                   stack := (eid, S pindex) :: rest |}
          else
            inr {| seen := seen st;
                   edges := edges';
                   stack := (pid, 0) :: (eid, pindex) :: rest |}
        end
    end
  end.

(** [while stack: ...] with at most [fuel] passes through the body. *)
Fixpoint while_stack (fuel : nat) (store : DataStore) (bitmask : Z)
    (st : dfs_state) : outcome dfs_state :=
  match stack st with
  | [] => Returned st
  | _ :: _ =>
    match fuel with
    | 0 => OutOfFuel
    | S fuel' =>
      match loop_body store bitmask st with
      | inl e => Raised e
      | inr st' => while_stack fuel' store bitmask st'
      end
    end
  end.

(** [for i, start in enumerate(state_after_parents): ...] (lines 92-117),
    from index [i] on; [fuel] bounds each inner [while] loop.  Only the keys of
    [state_after_parents] are read, so the mapping is given as its key list. *)
Fixpoint for_starts (fuel : nat) (store : DataStore) (i : nat)
    (starts : list string) (s : pydict) (es : gset (string * string))
  : outcome (pydict * gset (string * string)) :=
  match starts with
  | [] => Returned (s, es)
  | start :: starts' =>
    match while_stack fuel store (bitmask_of i)
            {| seen := s; edges := es; stack := [(start, 0)] |} with
    | Returned st => for_starts fuel store (S i) starts' (seen st) (edges st)
    | Raised e => Raised e
    | OutOfFuel => OutOfFuel
    end
  end.

(** Lines 89-117: the traversal, from [seen = defaultdict(int)] and
    [edges = set()]. *)
Definition auth_chain_traversal (fuel : nat) (store : DataStore)
    (state_after_parents : list string)
  : outcome (pydict * gset (string * string)) :=
  for_starts fuel store 0 state_after_parents [] ∅.

(** *** Rendering (lines 66-76 and 119-128) *)

(** A [pydot.Node] with the keyword arguments [node] can set on it. *)
Record Node := {
  node_name : string;
  label : string;
  shape : option string;
  fillcolor : string;
}.

(** The [pydot.Dot] graph, as the nodes and edges added to it. *)
Record Dot := {
  dot_nodes : list Node;
  dot_edges : list (string * string);
}.

Definition colors : list string :=
  ["gray"; "orangered"; "lightskyblue"; "mediumorchid1"].

Section Rendering.
(** [pydot.quote_if_necessary] *)
Variable q : string → string.

(** [node(event, fillcolor=...)]: the label defaults to the id and the type
    on two lines, and only [m.room.member] events get a shape of their own. *)
Definition node (event : EventBase) (fill : string) : Node :=
  {| node_name := q (event_id event);
     label := event_id event ++ String (Ascii.ascii_of_nat 10) EmptyString ++ type event;
     shape := if decide (type event = "m.room.member")
              then Some "oval" else None;
     fillcolor := fill |}.

(** [for eid, bitmask in seen.items(): ...] (lines 119-123), appending to
    the nodes added so far. *)
Fixpoint add_nodes (store : DataStore) (items : pydict) (acc : list Node)
  : outcome (list Node) :=
  match items with
  | [] => Returned acc
  | (eid, bitmask) :: items' =>
    match get_event store eid with
    | None => Raised AssertionError
    | Some event =>
      match py_index colors bitmask with
      | None => Raised IndexError
      | Some c => add_nodes store items' (acc ++ [node event c])
      end
    end
  end.

(** [dump_auth_chains], up to the graph it hands to [write_raw] and
    [write_svg]. *)
Definition dump_auth_chains (fuel : nat) (store : DataStore)
    (state_after_parents : list string) : outcome Dot :=
  match auth_chain_traversal fuel store state_after_parents with
  | Returned (s, es) =>
    match add_nodes store s [] with
    | Returned ns =>
      Returned {| dot_nodes := ns;
                  dot_edges := (λ e, (q e.1, q e.2)) <$> elements es |}
    | Raised e => Raised e
    | OutOfFuel => OutOfFuel
    end
  | Raised e => Raised e
  | OutOfFuel => OutOfFuel
  end.
End Rendering.

(** *** The auth graph *)

(** [p] is a direct auth event of the stored event [e]. *)
Definition auth_edge (store : DataStore) (e p : string) : Prop :=
  ∃ ev, store !! e = Some ev ∧ p ∈ auth_event_ids ev.

(** [e] is in the auth chain of [s]: reachable over zero or more auth edges. *)
Definition in_auth_chain (store : DataStore) (s e : string) : Prop :=
  rtc (auth_edge store) s e.

Definition acyclic (store : DataStore) : Prop :=
  ∀ e, ¬ tc (auth_edge store) e e.

(** A depth that drops along every auth edge; a checkable reason for
    [acyclic]. *)
Definition ranked (store : DataStore) (rank : string → nat) : Prop :=
  map_Forall (λ e ev, Forall (λ p, rank p < rank e) (auth_event_ids ev)) store.

(** Every auth event a stored event names is itself stored. *)
Definition auth_closed (store : DataStore) : Prop :=
  map_Forall (λ _ ev, Forall (λ p, is_Some (store !! p)) (auth_event_ids ev))
    store.

(** Every start event and every auth event referenced from the store can be
    fetched. *)
Definition all_fetchable (store : DataStore) (starts : list string) : Prop :=
  Forall (λ s, is_Some (store !! s)) starts ∧ auth_closed store.

(** Bit [i] of the bitmap of [e]. *)
Definition marked (i : nat) (s : pydict) (e : string) : bool :=
  Z.testbit (seen_get s e) (Z.of_nat i).

(** *** The traversal as the specification words it *)

(** [s'] is [s] with [eid] marked as reachable from start [i], and nothing
    else changed. *)
Definition marks (i : nat) (eid : string) (s s' : pydict) : Prop :=
  ∀ e j, marked j s' e =
         if decide (e = eid ∧ j = i) then true else marked j s e.

(** One visit of the top frame for start [i]: finish the event when all its
    auth events have been visited, step over an auth event already known to be
    reachable from start [i], or push the auth event as a new frame. *)
Inductive dfs_visit (store : DataStore) (i : nat)
  : dfs_state → dfs_state → Prop :=
  | visit_finish eid pindex rest event s s' es :
      get_event store eid = Some event →
      length (auth_event_ids event) ≤ pindex →
      marks i eid s s' →
      dfs_visit store i
        {| seen := s; edges := es; stack := (eid, pindex) :: rest |}
        {| seen := s'; edges := es; stack := rest |}
  | visit_advance eid pindex rest event pid s es :
      get_event store eid = Some event →
      auth_event_ids event !! pindex = Some pid →
      marked i s pid = true →
      dfs_visit store i
        {| seen := s; edges := es; stack := (eid, pindex) :: rest |}
        {| seen := s; edges := {[ (eid, pid) ]} ∪ es;
           stack := (eid, S pindex) :: rest |}
  | visit_push eid pindex rest event pid s es :
      get_event store eid = Some event →
      auth_event_ids event !! pindex = Some pid →
      marked i s pid = false →
      dfs_visit store i
        {| seen := s; edges := es; stack := (eid, pindex) :: rest |}
        {| seen := s; edges := {[ (eid, pid) ]} ∪ es;
           stack := (pid, 0) :: (eid, pindex) :: rest |}.

(** *** Counting the work *)

(** The event a pass through the loop body pushes, if it pushes one. *)
Definition pushed (store : DataStore) (bitmask : Z) (st : dfs_state)
  : option string :=
  match loop_body store bitmask st with
  | inr st' =>
    if decide (length (stack st) < length (stack st'))
    then fst <$> head (stack st') else None
  | inl _ => None
  end.

(** The events pushed by [while_stack], in order. *)
Fixpoint push_log (fuel : nat) (store : DataStore) (bitmask : Z)
    (st : dfs_state) : list string :=
  match stack st with
  | [] => []
  | _ :: _ =>
    match fuel with
    | 0 => []
    | S fuel' =>
      match loop_body store bitmask st with
      | inl _ => []
      | inr st' =>
        option_list (pushed store bitmask st)
          ++ push_log fuel' store bitmask st'
      end
    end
  end.

(** The number of passes through the loop body [while_stack] makes. *)
Fixpoint passes (fuel : nat) (store : DataStore) (bitmask : Z)
    (st : dfs_state) : nat :=
  match stack st with
  | [] => 0
  | _ :: _ =>
    match fuel with
    | 0 => 0
    | S fuel' =>
      match loop_body store bitmask st with
      | inl _ => 1
      | inr st' => S (passes fuel' store bitmask st')
      end
    end
  end.

(** Number of auth-event slots of [e] (0 when [e] is not stored). *)
Definition auth_count (store : DataStore) (e : string) : nat :=
  match store !! e with
  | Some ev => length (auth_event_ids ev)
  | None => 0
  end.

(** The index at which [e] sits on the stack. *)
Fixpoint frame_of (stk : list (string * nat)) (e : string) : option nat :=
  match stk with
  | [] => None
  | (e', k) :: stk' => if decide (e' = e) then Some k else frame_of stk' e
  end.

(** Work still owed to event [e] for start [i]: a push, a pop and a step per
    auth slot while untouched; a pop and the remaining slots while on the
    stack; nothing once marked. *)
Definition weight (store : DataStore) (i : nat) (st : dfs_state) (e : string)
  : nat :=
  match frame_of (stack st) e with
  | Some k => 1 + (auth_count store e - k)
  | None => if marked i (seen st) e then 0 else 2 + auth_count store e
  end.

Definition work (store : DataStore) (i : nat) (universe : list string)
    (st : dfs_state) : nat :=
  sum_list (weight store i st <$> universe).

(** The ids of the stored events. *)
Definition store_ids (store : DataStore) : list string :=
  (map_to_list store).*1.

(** Two passes per stored event and one per auth edge. *)
Definition work_bound (store : DataStore) : nat :=
  sum_list ((λ kv, 2 + length (auth_event_ids kv.2)) <$> map_to_list store).

(** The auth events the stored events name, one entry per auth slot. *)
Definition auth_targets (store : DataStore) : list string :=
  mjoin (auth_event_ids <$> (map_to_list store).*2).

(** The number of auth edges of the store. *)
Definition total_auth_edges (store : DataStore) : nat :=
  length (auth_targets store).

(** Every id the traversal can come across: the starts, the stored events and
    whatever they name, stored or not. *)
Definition mentioned_ids (store : DataStore) (starts : list string)
  : list string :=
  starts ++ store_ids store ++ auth_targets store.

Definition open_work_bound (store : DataStore) (starts : list string) : nat :=
  sum_list ((λ e, 2 + auth_count store e) <$> mentioned_ids store starts).

(** The events one start can reach: itself and targets of auth edges. *)
Definition edge_universe (store : DataStore) (start : string) : list string :=
  remove_dups (start :: auth_targets store).

(** Passes the loop for one start can make, in auth edges alone. *)
Definition edge_bound (store : DataStore) : nat :=
  3 * total_auth_edges store + 2.

(** The passes through the loop body over all rounds of [for_starts]. *)
Fixpoint total_passes (fuel : nat) (store : DataStore) (i : nat)
    (starts : list string) (s : pydict) (es : gset (string * string)) : nat :=
  match starts with
  | [] => 0
  | start :: starts' =>
    let st0 := {| seen := s; edges := es; stack := [(start, 0)] |} in
    passes fuel store (bitmask_of i) st0 +
    match while_stack fuel store (bitmask_of i) st0 with
    | Returned st =>
      total_passes fuel store (S i) starts' (seen st) (edges st)
    | _ => 0
    end
  end.

(** Two outcomes that agree on everything but the edges recorded. *)
Definition same_seen (o1 o2 : outcome dfs_state) : Prop :=
  match o1, o2 with
  | Returned st1, Returned st2 =>
    seen st1 = seen st2 ∧ stack st1 = stack st2
  | Raised e1, Raised e2 => e1 = e2
  | OutOfFuel, OutOfFuel => True
  | _, _ => False
  end.

(** *** Loop invariants *)

(** Each frame is the auth event its parent frame is currently looking at. *)
Fixpoint linked (store : DataStore) (stk : list (string * nat)) : Prop :=
  match stk with
  | [] => True
  | (c, _) :: stk' =>
    match stk' with
    | [] => True
    | (p, kp) :: _ =>
      (∃ ev, store !! p = Some ev ∧ auth_event_ids ev !! kp = Some c)
      ∧ linked store stk'
    end
  end.

(** What holds between passes of the [while] loop for start [start] with
    index [i], entered with [seen = s0] and [edges = es0]. *)
Record dfs_inv (store : DataStore) (i : nat) (start : string)
    (s0 : pydict) (es0 : gset (string * string)) (st : dfs_state) : Prop := {
  inv_bottom :
    match last (stack st) with
    | Some (e, _) => e = start
    | None => marked i (seen st) start = true
    end;
  inv_stack_reach :
    ∀ e k, (e, k) ∈ stack st → in_auth_chain store start e;
  inv_slots :
    ∀ e k ev j p, (e, k) ∈ stack st → store !! e = Some ev → j < k →
      auth_event_ids ev !! j = Some p →
      marked i (seen st) p = true ∧ (e, p) ∈ edges st;
  inv_closed :
    ∀ e, marked i (seen st) e = true →
      ∃ ev, store !! e = Some ev ∧
        ∀ p, p ∈ auth_event_ids ev →
          marked i (seen st) p = true ∧ (e, p) ∈ edges st;
  inv_reach :
    ∀ e, marked i (seen st) e = true → in_auth_chain store start e;
  inv_other_bits :
    ∀ e j, j ≠ i → marked j (seen st) e = marked j s0 e;
  inv_edges_mono : es0 ⊆ edges st;
  inv_edges_new :
    ∀ e p, (e, p) ∈ edges st →
      (e, p) ∈ es0 ∨ (in_auth_chain store start e ∧ auth_edge store e p);
}.

(** What the representation of [seen] keeps: one entry per key, every key a
    stored event, every bitmap non-negative. *)
Record seen_wf (store : DataStore) (s : pydict) : Prop := {
  wf_nodup : NoDup s.*1;
  wf_stored : ∀ e, e ∈ s.*1 → is_Some (store !! e);
  wf_nonneg : ∀ e, (0 ≤ seen_get s e)%Z;
}.

(** What the stack keeps on an acyclic store: a path without repetition
    inside the universe the work is counted over. *)
Record stack_wf (store : DataStore) (universe : list string)
    (stk : list (string * nat)) : Prop := {
  swf_linked : linked store stk;
  swf_nodup : NoDup stk.*1;
  swf_universe : ∀ e, e ∈ stk.*1 → e ∈ universe;
}.

(** The universe holds every auth event of its stored members. *)
Definition universe_closed (store : DataStore) (universe : list string) : Prop :=
  ∀ e p, e ∈ universe → auth_edge store e p → p ∈ universe.

(** What holds between rounds of the [for] loop, [done] being the starts
    already handled. *)
Record outer_inv (store : DataStore) (done : list string)
    (s : pydict) (es : gset (string * string)) : Prop := {
  out_bits :
    ∀ e j, marked j s e = true ↔
      ∃ start, done !! j = Some start ∧ in_auth_chain store start e;
  out_edges :
    ∀ e p, (e, p) ∈ es ↔
      auth_edge store e p ∧
      ∃ start, start ∈ done ∧ in_auth_chain store start e;
  out_wf : seen_wf store s;
}.

(** *** The general [node] (lines 66-76) *)

(** What [pydot.Node(name, **attrs)] is made of. *)
Record PydotNode := {
  pydot_name : string;
  pydot_attributes : gmap string string;
}.

Definition type_to_shape : gmap string string :=
  {[ "m.room.member" := "oval" ]}.

(** The keyword arguments that reach the node as attributes.  A keyword
    [event] clashes with the parameter of [node] itself, [name] and [self]
    with those of [pydot.Node], all three a [TypeError]; and with [obj_dict]
    given, [pydot.Node] takes that object and leaves the attributes out. *)
Definition plain_kwargs (kwargs : gmap string string) : Prop :=
  Forall (λ k, kwargs !! k = None) ["event"; "name"; "obj_dict"; "self"].

Section NodeKwargs.
(** [pydot.quote_if_necessary] *)
Variable q : string → string.

(** [node(event, **kwargs)] on [plain_kwargs]: [setdefault] only fills in a
    missing label, and the shape is only set when the caller gave none and
    the event type has one. *)
Definition node_kwargs (event : EventBase) (kwargs : gmap string string)
  : PydotNode :=
  let kwargs1 :=
    match kwargs !! "label" with
    | Some _ => kwargs
    | None =>
      <["label" := (event_id event
                    ++ String (Ascii.ascii_of_nat 10) EmptyString
                    ++ type event)%string]> kwargs
    end in
  let kwargs2 :=
    match kwargs1 !! "shape" with
    | Some _ => kwargs1
    | None =>
      match type_to_shape !! type event with
      | Some sh => <["shape" := sh]> kwargs1
      | None => kwargs1
      end
    end in
  {| pydot_name := q (event_id event); pydot_attributes := kwargs2 |}.

(** The node made for one entry of [seen] (lines 120-123). *)
Definition entry_node (store : DataStore) (entry : string * Z) (n : Node)
  : Prop :=
  ∃ ev c, store !! entry.1 = Some ev
          ∧ py_index colors entry.2 = Some c
          ∧ n = node q ev c.
End NodeKwargs.

(** *** States in the middle of a round *)

(** The state after at most [n] passes of the [while] loop. *)
Fixpoint after_passes (n : nat) (store : DataStore) (bitmask : Z)
    (st : dfs_state) : exn + dfs_state :=
  match n with
  | 0 => inr st
  | S n' =>
    match stack st with
    | [] => inr st
    | _ :: _ =>
      match loop_body store bitmask st with
      | inl e => inl e
      | inr st' => after_passes n' store bitmask st'
      end
    end
  end.

(** [p] comes before [e] in the list. *)
Definition before_in (l : list string) (p e : string) : Prop :=
  ∃ i j, l !! i = Some p ∧ l !! j = Some e ∧ i < j.

(** Every entry comes after the auth events of its event. *)
Definition auth_first (store : DataStore) (s : pydict) : Prop :=
  ∀ e ev p, e ∈ s.*1 → store !! e = Some ev → p ∈ auth_event_ids ev →
    before_in s.*1 p e.

(** Every bitmap stored is positive. *)
Definition entries_positive (s : pydict) : Prop :=
  ∀ e v, (e, v) ∈ s → (0 < v)%Z.

(** Two events that cite each other. *)
Definition cyclic_store : DataStore :=
  list_to_map [
    ("$a", {| event_id := "$a"; type := "m.room.member";
              auth_event_ids := ["$b"] |});
    ("$b", {| event_id := "$b"; type := "m.room.member";
              auth_event_ids := ["$a"] |})
  ].

(** *** A small room *)

Definition mk_event (eid ty : string) (auth : list string) : EventBase :=
  {| event_id := eid; type := ty; auth_event_ids := auth |}.

(** A creation event, the power levels, a join and a topic change, each
    citing the earlier ones as its auth events. *)
Definition demo_store : DataStore :=
  list_to_map [
    ("$create", mk_event "$create" "m.room.create" []);
    ("$power", mk_event "$power" "m.room.power_levels" ["$create"]);
    ("$member", mk_event "$member" "m.room.member" ["$create"; "$power"]);
    ("$topic", mk_event "$topic" "m.room.topic"
                 ["$create"; "$power"; "$member"])
  ].

Definition demo_rank (e : string) : nat :=
  if decide (e = "$topic") then 3
  else if decide (e = "$member") then 2
  else if decide (e = "$power") then 1
  else 0.

(** The same room with the power-levels event not fetched yet. *)
Definition partial_store : DataStore := delete "$power" demo_store.

End DebugStateRes.

Module PartialState.

(** *** Classes made by [attr.s] *)

(** What [@attr.s(slots=..., frozen=..., auto_attribs=True)] fixes about a
    class: its annotated attributes, in order, and the two flags. *)
Record attrs_class := {
  cls_name : string;
  cls_fields : list string;
  cls_slots : bool;
  cls_frozen : bool;
}.

(** An instance: its class and the values of its attributes. *)
Record attrs_instance := {
  inst_class : attrs_class;
  inst_values : gmap string string;
}.

(** The generated [__init__], called with positional arguments. *)
Definition attrs_new (cls : attrs_class) (args : list string)
  : exn + attrs_instance :=
  if decide (length args = length (cls_fields cls)) then
    inr {| inst_class := cls;
           inst_values := list_to_map (zip (cls_fields cls) args) |}
  else inl TypeError.

(** [getattr(o, name)] *)
Definition attrs_getattr (o : attrs_instance) (name : string) : exn + string :=
  match inst_values o !! name with
  | Some v => inr v
  | None => inl AttributeError
  end.

(** [setattr(o, name, value)]: a frozen class refuses every assignment, and a
    slotted one has no [__dict__] to take an attribute it did not declare. *)
Definition attrs_setattr (o : attrs_instance) (name value : string)
  : exn + attrs_instance :=
  if cls_frozen (inst_class o) then inl FrozenInstanceError
  else if cls_slots (inst_class o)
          && bool_decide (name ∉ cls_fields (inst_class o))
  then inl AttributeError
  else inr {| inst_class := inst_class o;
              inst_values := <[name := value]> (inst_values o) |}.

(** [delattr(o, name)] *)
Definition attrs_delattr (o : attrs_instance) (name : string)
  : exn + attrs_instance :=
  if cls_frozen (inst_class o) then inl FrozenInstanceError
  else match inst_values o !! name with
       | Some _ => inr {| inst_class := inst_class o;
                          inst_values := delete name (inst_values o) |}
       | None => inl AttributeError
       end.

(** *** The stream (lines 26-47) *)

(** Room ids travel as strings. *)
Abbreviation RoomID := string.

(** [UnPartialStatedRoomStream.UnPartialStatedRoomStreamRow] *)
Definition UnPartialStatedRoomStreamRow : attrs_class :=
  {| cls_name := "UnPartialStatedRoomStreamRow";
     cls_fields := ["room_id"];
     cls_slots := true;
     cls_frozen := true |}.

Definition NAME : string := "un_partial_stated_room".
Definition ROW_TYPE : attrs_class := UnPartialStatedRoomStreamRow.

(** [UnPartialStatedRoomStreamRow(room_id)] *)
Definition new_row (room_id : RoomID) : attrs_instance :=
  {| inst_class := ROW_TYPE; inst_values := {[ "room_id" := room_id ]} |}.

(** The same class without [frozen=True]. *)
Definition thawed (cls : attrs_class) : attrs_class :=
  {| cls_name := cls_name cls;
     cls_fields := cls_fields cls;
     cls_slots := cls_slots cls;
     cls_frozen := false |}.

Section Stream.
(** The type of the update function handed on to [Stream]. *)
Context {U : Type}.

(** What [Stream.__init__] keeps, with the class attributes of the
    subclass. *)
Record Stream := {
  stream_name : string;
  stream_row_type : attrs_class;
  local_instance_name : string;
  current_token : string → Z;
  update_function : U;
}.

(** The two methods of [hs.get_datastores().main] the constructor reads. *)
Record DataStoreMain := {
  get_un_partial_stated_rooms_token : unit → Z;
  get_un_partial_stated_rooms_from_stream : U;
}.

Record HomeServer := {
  get_instance_name : string;
  main : DataStoreMain;
}.

(** Modelled from the spec: [current_token_without_instance] of
    [synapse/replication/tcp/streams/_base.py] is not among the sources.
    The specification's [CurrentPosition()] takes no instance; the wrapper
    makes of such a callable the per-instance callable a [Stream] holds, the
    instance name being ignored. *)
Definition current_token_without_instance (current : unit → Z)
  : string → Z :=
  λ _, current tt.

(** [UnPartialStatedRoomStream.__init__] *)
Definition UnPartialStatedRoomStream (hs : HomeServer) : Stream :=
  let store := main hs in
  {| stream_name := NAME;
     stream_row_type := ROW_TYPE;
     local_instance_name := get_instance_name hs;
     current_token :=
       current_token_without_instance
         (get_un_partial_stated_rooms_token store);
     update_function := get_un_partial_stated_rooms_from_stream store |}.

(** Modelled from the spec: the merge rule for several writers, which
    lives in the storage layer and is not among the sources.  Each writer
    instance that has acknowledged has a position; the position exposed is
    the minimum of them (0 before any writer has acknowledged). *)
Definition merged_position (positions : gmap string Z) : Z :=
  match (map_to_list positions).*2 with
  | [] => 0%Z
  | p :: ps => foldr Z.min p ps
  end.

(** Modelled from the spec: a store whose token is the merged position of
    its writers. *)
Definition store_of_positions (positions : gmap string Z) (updates : U)
  : DataStoreMain :=
  {| get_un_partial_stated_rooms_token := λ _, merged_position positions;
     get_un_partial_stated_rooms_from_stream := updates |}.
End Stream.
Arguments Stream : clear implicits.
Arguments DataStoreMain : clear implicits.
Arguments HomeServer : clear implicits.

(** Two writers, one of them behind. *)
Definition demo_positions : gmap string Z :=
  {[ "master" := 5%Z; "worker1" := 3%Z ]}.

End PartialState.

(** * Properties *)

Import DebugStateRes.

(** ** Dictionaries and bitmaps *)

Lemma dict_lookup_set (d : pydict) (k k' : string) (v : Z) :
  dict_lookup (dict_set d k v) k' =
  if decide (k = k') then Some v else dict_lookup d k'.
Proof.
  induction d as [|[k0 v0] d IH]; simpl.
  - repeat case_decide; congruence.
  - destruct (decide (k0 = k)) as [->|Hne]; simpl.
    + repeat case_decide; congruence.
    + rewrite IH. repeat case_decide; congruence.
Qed.

Lemma seen_get_set (d : pydict) (k k' : string) (v : Z) :
  seen_get (dict_set d k v) k' = if decide (k = k') then v else seen_get d k'.
Proof. unfold seen_get. rewrite dict_lookup_set. by case_decide. Qed.

Lemma dict_lookup_elem_of (d : pydict) (k : string) (v : Z) :
  dict_lookup d k = Some v → (k, v) ∈ d.
Proof.
  induction d as [|[k0 v0] d IH]; simpl; [done|].
  case_decide; intros ?; simplify_eq; [left | right; auto].
Qed.

Lemma dict_set_keys_in (d : pydict) (k k' : string) (v : Z) :
  k' ∈ (dict_set d k v).*1 ↔ k' = k ∨ k' ∈ d.*1.
Proof.
  induction d as [|[k0 v0] d IH]; simpl.
  - rewrite list_elem_of_singleton, elem_of_nil. naive_solver.
  - case_decide; subst; simpl; rewrite !elem_of_cons; naive_solver.
Qed.

Lemma dict_set_NoDup (d : pydict) (k : string) (v : Z) :
  NoDup d.*1 → NoDup (dict_set d k v).*1.
Proof.
  induction d as [|[k0 v0] d IH]; simpl; intros Hnd.
  - apply NoDup_singleton.
  - apply NoDup_cons in Hnd as [Hk0 Hnd]. case_decide; subst; simpl.
    + by apply NoDup_cons.
    + apply NoDup_cons. split; [|auto].
      rewrite dict_set_keys_in. naive_solver.
Qed.

Lemma dict_elem_of_lookup (d : pydict) (k : string) (v : Z) :
  NoDup d.*1 → (k, v) ∈ d → dict_lookup d k = Some v.
Proof.
  induction d as [|[k0 v0] d IH]; simpl; intros Hnd Hin.
  - by apply elem_of_nil in Hin.
  - apply NoDup_cons in Hnd as [Hk0 Hnd].
    apply elem_of_cons in Hin as [Heq | Hin].
    + simplify_eq. by rewrite decide_True.
    + rewrite decide_False; [auto|].
      intros ->. apply Hk0. apply list_elem_of_fmap. by exists (k, v).
Qed.

Lemma testbit_bitmask (i j : nat) :
  Z.testbit (bitmask_of i) (Z.of_nat j) = bool_decide (i = j).
Proof.
  unfold bitmask_of. rewrite Z.shiftl_1_l, Z.pow2_bits_eqb by lia.
  case_bool_decide; [apply Z.eqb_eq | apply Z.eqb_neq]; lia.
Qed.

Lemma bitmask_nonneg (i : nat) : (0 ≤ bitmask_of i)%Z.
Proof. unfold bitmask_of. rewrite Z.shiftl_1_l. lia. Qed.

Lemma land_bitmask (x : Z) (i : nat) :
  Z.land x (bitmask_of i) ≠ 0%Z ↔ Z.testbit x (Z.of_nat i) = true.
Proof.
  split.
  - intros Hne. destruct (Z.testbit x (Z.of_nat i)) eqn:Hb; [done|].
    exfalso. apply Hne. apply Z.bits_inj'. intros n Hn.
    rewrite Z.land_spec, Z.bits_0.
    destruct (decide (n = Z.of_nat i)) as [->|Hni]; [by rewrite Hb|].
    replace n with (Z.of_nat (Z.to_nat n)) by lia.
    rewrite testbit_bitmask, bool_decide_eq_false_2 by lia.
    apply andb_false_r.
  - intros Hb Hz.
    assert (Z.testbit (Z.land x (bitmask_of i)) (Z.of_nat i) = true) as Ht.
    { rewrite Z.land_spec, Hb, testbit_bitmask. by rewrite bool_decide_eq_true_2. }
    rewrite Hz, Z.bits_0 in Ht. done.
Qed.

Lemma marks_lor (i : nat) (eid : string) (s : pydict) :
  marks i eid s (dict_set s eid (Z.lor (seen_get s eid) (bitmask_of i))).
Proof.
  intros e j. unfold marked. rewrite seen_get_set.
  destruct (decide (eid = e)) as [->|Hne].
  - rewrite Z.lor_spec, testbit_bitmask.
    case_decide as Hd.
    + destruct Hd as [_ ->]. rewrite bool_decide_eq_true_2 by done.
      apply orb_true_r.
    + rewrite bool_decide_eq_false_2 by naive_solver. apply orb_false_r.
  - rewrite decide_False by naive_solver. done.
Qed.

(** ** One pass through the loop body *)

Lemma loop_body_visit (store : DataStore) (i : nat) (st st' : dfs_state) :
  stack st ≠ [] →
  loop_body store (bitmask_of i) st = inr st' →
  dfs_visit store i st st'.
Proof.
  destruct st as [s es stk]. unfold loop_body. simpl.
  destruct stk as [|[eid pindex] rest]; [done|]. intros _.
  destruct (get_event store eid) as [event|] eqn:Hev; [|done].
  case_decide as Hlen.
  - intros [= <-]. eapply visit_finish; eauto using marks_lor.
  - destruct (auth_event_ids event !! pindex) as [pid|] eqn:Hpid; [|done].
    case_decide as Hbit; intros [= <-].
    + eapply visit_advance; eauto. by apply land_bitmask.
    + eapply visit_push; eauto. unfold marked.
      destruct (Z.testbit _ _) eqn:Hb; [|done].
      by apply land_bitmask in Hb.
Qed.

Lemma loop_body_fetchable (store : DataStore) (bitmask : Z) (st : dfs_state)
    (eid : string) (pindex : nat) (rest : list (string * nat)) :
  stack st = (eid, pindex) :: rest →
  is_Some (store !! eid) →
  ∃ st', loop_body store bitmask st = inr st'.
Proof.
  intros Hstk [event Hev]. unfold loop_body, get_event. rewrite Hstk, Hev.
  case_decide as Hlen; [eauto|].
  destruct (auth_event_ids event !! pindex) as [pid|] eqn:Hpid.
  - case_decide; eauto.
  - apply lookup_ge_None in Hpid. lia.
Qed.

Lemma loop_body_missing (store : DataStore) (bitmask : Z) (st : dfs_state)
    (eid : string) (pindex : nat) (rest : list (string * nat)) :
  stack st = (eid, pindex) :: rest →
  store !! eid = None →
  loop_body store bitmask st = inl AssertionError.
Proof. intros Hstk Hev. unfold loop_body, get_event. by rewrite Hstk, Hev. Qed.

(** ** The loop invariant of the traversal *)

Lemma marks_mono (i : nat) (eid : string) (s s' : pydict) (j : nat) (e : string) :
  marks i eid s s' → marked j s e = true → marked j s' e = true.
Proof. intros Hm He. rewrite (Hm e j). by case_decide. Qed.

Lemma marks_inv (i : nat) (eid : string) (s s' : pydict) (e : string) :
  marks i eid s s' → marked i s' e = true → e = eid ∨ marked i s e = true.
Proof. intros Hm. rewrite (Hm e i). case_decide; naive_solver. Qed.

Lemma marks_self (i : nat) (eid : string) (s s' : pydict) :
  marks i eid s s' → marked i s' eid = true.
Proof. intros Hm. rewrite (Hm eid i). by rewrite decide_True. Qed.

Lemma marks_other (i : nat) (eid : string) (s s' : pydict) (j : nat) (e : string) :
  marks i eid s s' → j ≠ i → marked j s' e = marked j s e.
Proof. intros Hm Hj. rewrite (Hm e j). by rewrite decide_False by naive_solver. Qed.

Lemma auth_edge_lookup (store : DataStore) (e p : string) (ev : EventBase)
    (k : nat) :
  store !! e = Some ev → auth_event_ids ev !! k = Some p → auth_edge store e p.
Proof. intros He Hk. exists ev. split; [done|]. by eapply list_elem_of_lookup_2. Qed.

Lemma dfs_inv_init (store : DataStore) (i : nat) (start : string)
    (s0 : pydict) (es0 : gset (string * string)) :
  (∀ e, marked i s0 e = false) →
  dfs_inv store i start s0 es0
    {| seen := s0; edges := es0; stack := [(start, 0)] |}.
Proof.
  intros Hfresh. split; simpl.
  - done.
  - intros e k Hin%list_elem_of_singleton. simplify_eq. unfold in_auth_chain. reflexivity.
  - intros e k ev j p Hin%list_elem_of_singleton _ Hj. simplify_eq. lia.
  - intros e He. by rewrite Hfresh in He.
  - intros e He. by rewrite Hfresh in He.
  - done.
  - done.
  - auto.
Qed.

Lemma dfs_inv_visit (store : DataStore) (i : nat) (start : string)
    (s0 : pydict) (es0 : gset (string * string)) (st st' : dfs_state) :
  dfs_inv store i start s0 es0 st →
  dfs_visit store i st st' →
  dfs_inv store i start s0 es0 st'.
Proof.
  intros [Hbot Hsr Hsl Hcl Hre Hob Hem Hen] Hv.
  destruct Hv as [eid pindex rest event s s' es Hev Hlen Hm
                 |eid pindex rest event pid s es Hev Hpid Hbit
                 |eid pindex rest event pid s es Hev Hpid Hbit];
    simpl in *; unfold get_event in Hev.
  - (* the event is finished: marked and popped *)
    assert (in_auth_chain store start eid) as Hreid by (eapply Hsr; left).
    split; simpl.
    + destruct rest as [|f rest]; simpl in *.
      * subst. eauto using marks_self.
      * destruct (last (f :: rest)) as [[? ?]|] eqn:Hl; [done|].
        by apply last_None in Hl.
    + intros e k Hin. eapply Hsr. by right.
    + intros e k ev j p Hin He Hj Hp.
      destruct (Hsl e k ev j p) as [? ?]; [by right|done..|].
      eauto using marks_mono.
    + intros e [->|He]%(marks_inv _ _ _ _ _ Hm).
      * exists event. split; [done|]. intros p [j Hj]%list_elem_of_lookup_1.
        destruct (Hsl eid pindex event j p) as [? ?]; [by left|done| |done|].
        { apply lookup_lt_Some in Hj. lia. }
        eauto using marks_mono.
      * destruct (Hcl e He) as (ev & Hstore & Hps). exists ev. split; [done|].
        intros p Hp. destruct (Hps p Hp). eauto using marks_mono.
    + intros e [->|He]%(marks_inv _ _ _ _ _ Hm); auto.
    + intros e j Hj. rewrite <- Hob by done. eauto using marks_other.
    + done.
    + done.
  - (* the auth event is already marked: step over it *)
    assert (in_auth_chain store start eid) as Hreid by (eapply Hsr; left).
    split; simpl.
    + destruct rest as [|f rest]; simpl in *; done.
    + intros e k [Heq|Hin]%elem_of_cons; [simplify_eq; done|].
      eapply Hsr. by right.
    + intros e k ev j p [Heq|Hin]%elem_of_cons He Hj Hp.
      * simplify_eq. destruct (decide (j = pindex)) as [->|Hne].
        -- simplify_eq. split; [done|]. set_solver.
        -- assert (j < pindex) as Hj' by lia.
           edestruct (Hsl eid pindex) as [? ?];
             [by left|eassumption|exact Hj'|eassumption|].
           split; [done|]. set_solver.
      * destruct (Hsl e k ev j p) as [? ?]; [by right|done..|].
        split; [done|]. set_solver.
    + intros e He. destruct (Hcl e He) as (ev & Hstore & Hps).
      exists ev. split; [done|]. intros p Hp. destruct (Hps p Hp).
      split; [done|]. set_solver.
    + done.
    + done.
    + set_solver.
    + intros e p [Heq%elem_of_singleton|Hin]%elem_of_union.
      * simplify_eq. right. eauto using auth_edge_lookup.
      * auto.
  - (* the auth event is new to this start: push it *)
    assert (in_auth_chain store start eid) as Hreid by (eapply Hsr; left).
    split; simpl.
    + done.
    + intros e k [Heq|Hin]%elem_of_cons; [|by eapply Hsr].
      simplify_eq. eapply rtc_r; [done|]. eauto using auth_edge_lookup.
    + intros e k ev j p [Heq|Hin]%elem_of_cons He Hj Hp.
      * simplify_eq. lia.
      * destruct (Hsl e k ev j p) as [? ?]; [done..|].
        split; [done|]. set_solver.
    + intros e He. destruct (Hcl e He) as (ev & Hstore & Hps).
      exists ev. split; [done|]. intros p Hp. destruct (Hps p Hp).
      split; [done|]. set_solver.
    + done.
    + done.
    + set_solver.
    + intros e p [Heq%elem_of_singleton|Hin]%elem_of_union.
      * simplify_eq. right. eauto using auth_edge_lookup.
      * auto.
Qed.

Lemma while_stack_inv (store : DataStore) (i : nat) (start : string)
    (s0 : pydict) (es0 : gset (string * string)) (fuel : nat)
    (st st' : dfs_state) :
  dfs_inv store i start s0 es0 st →
  while_stack fuel store (bitmask_of i) st = Returned st' →
  dfs_inv store i start s0 es0 st' ∧ stack st' = [].
Proof.
  revert st. induction fuel as [|fuel IH]; intros st Hinv; simpl.
  - destruct (stack st) eqn:Hstk; [|done]. intros [= <-]. done.
  - destruct (stack st) eqn:Hstk; [intros [= <-]; done|].
    destruct (loop_body store (bitmask_of i) st) as [|st1] eqn:Hbody; [done|].
    apply IH. eapply dfs_inv_visit; [done|].
    apply loop_body_visit; [|done]. by rewrite Hstk.
Qed.

(** When the loop for one start is over, bit [i] marks exactly its auth
    chain. *)
Lemma dfs_inv_finished (store : DataStore) (i : nat) (start : string)
    (s0 : pydict) (es0 : gset (string * string)) (st : dfs_state) (e : string) :
  dfs_inv store i start s0 es0 st → stack st = [] →
  marked i (seen st) e = true ↔ in_auth_chain store start e.
Proof.
  intros Hinv Hstk. split; [apply (inv_reach _ _ _ _ _ _ Hinv)|].
  revert e. apply rtc_ind_r; [|intros y z _ [ev [Hx Hy]] IH].
  - pose proof (inv_bottom _ _ _ _ _ _ Hinv) as Hbot. by rewrite Hstk in Hbot.
  - destruct (inv_closed _ _ _ _ _ _ Hinv _ IH) as (ev' & Hx' & Hps).
    simplify_eq. by apply Hps.
Qed.

Lemma loop_body_seen_wf (store : DataStore) (bitmask : Z) (st st' : dfs_state) :
  (0 ≤ bitmask)%Z →
  seen_wf store (seen st) →
  loop_body store bitmask st = inr st' →
  seen_wf store (seen st').
Proof.
  intros Hmask [Hnd Hst Hnn]. unfold loop_body, get_event.
  destruct (stack st) as [|[eid pindex] rest]; [by intros [= <-]|].
  destruct (store !! eid) as [event|] eqn:Hev; [|done].
  case_decide.
  - intros [= <-]. split; simpl.
    + by apply dict_set_NoDup.
    + intros e [->|He]%dict_set_keys_in; eauto.
    + intros e. rewrite seen_get_set. case_decide; [|done].
      apply Z.lor_nonneg. auto.
  - destruct (auth_event_ids event !! pindex); [|done].
    case_decide; by intros [= <-].
Qed.

Lemma while_stack_seen_wf (store : DataStore) (bitmask : Z) (fuel : nat)
    (st st' : dfs_state) :
  (0 ≤ bitmask)%Z →
  seen_wf store (seen st) →
  while_stack fuel store bitmask st = Returned st' →
  seen_wf store (seen st').
Proof.
  intros Hmask. revert st. induction fuel as [|fuel IH]; intros st Hwf; simpl.
  - destruct (stack st); [|done]. by intros [= <-].
  - destruct (stack st); [by intros [= <-]|].
    destruct (loop_body store bitmask st) as [|st1] eqn:Hbody; [done|].
    apply IH. eauto using loop_body_seen_wf.
Qed.

Lemma outer_inv_init (store : DataStore) : outer_inv store [] [] ∅.
Proof.
  split.
  - intros e j. unfold marked, seen_get. simpl. rewrite Z.bits_0.
    split; [done|]. by intros (? & ? & _).
  - intros e p. split; [set_solver|].
    intros (_ & ? & []%elem_of_nil & _).
  - split; simpl.
    + constructor.
    + by intros e ?%elem_of_nil.
    + done.
Qed.

Lemma outer_inv_step (store : DataStore) (done : list string) (start : string)
    (s : pydict) (es : gset (string * string)) (fuel : nat) (st : dfs_state) :
  outer_inv store done s es →
  while_stack fuel store (bitmask_of (length done))
    {| seen := s; edges := es; stack := [(start, 0)] |} = Returned st →
  outer_inv store (done ++ [start]) (seen st) (edges st).
Proof.
  intros [Hbits Hedges Hwf] Hrun.
  assert (∀ e, marked (length done) s e = false) as Hfresh.
  { intros e. destruct (marked (length done) s e) eqn:Hm; [|done].
    apply Hbits in Hm as (x & Hx & _).
    apply lookup_lt_Some in Hx. lia. }
  pose proof (dfs_inv_init store (length done) start s es Hfresh) as Hinit.
  destruct (while_stack_inv _ _ _ _ _ _ _ _ Hinit Hrun) as [Hinv Hstk].
  split.
  - intros e j. destruct (decide (j = length done)) as [->|Hj].
    + rewrite (dfs_inv_finished _ _ _ _ _ _ e Hinv Hstk).
      rewrite lookup_app_r, Nat.sub_diag by done. simpl. naive_solver.
    + rewrite (inv_other_bits _ _ _ _ _ _ Hinv) by done. rewrite Hbits.
      destruct (decide (j < length done)).
      * by rewrite lookup_app_l.
      * rewrite lookup_app_r by lia.
        rewrite (lookup_ge_None_2 done) by lia.
        destruct (j - length done) as [|m] eqn:Hm; [lia|]. simpl.
        naive_solver.
  - intros e p. split.
    + intros [Hold|[Hre He]]%(inv_edges_new _ _ _ _ _ _ Hinv).
      * apply Hedges in Hold as (He & x & Hx & Hre).
        split; [done|]. exists x. split; [|done].
        apply elem_of_app. by left.
      * split; [done|]. exists start. split; [|done].
        apply elem_of_app. right. by left.
    + intros (He & x & [Hx|Hx%list_elem_of_singleton]%elem_of_app & Hre).
      * apply (inv_edges_mono _ _ _ _ _ _ Hinv). apply Hedges. eauto.
      * subst x.
        apply (dfs_inv_finished _ _ _ _ _ _ e Hinv Hstk) in Hre.
        destruct (inv_closed _ _ _ _ _ _ Hinv _ Hre) as (ev & Hev & Hps).
        destruct He as (ev' & Hev' & Hp). simplify_eq. by apply Hps.
  - eapply while_stack_seen_wf; [apply bitmask_nonneg| |exact Hrun]. done.
Qed.

Lemma for_starts_inv (store : DataStore) (fuel : nat) (starts done : list string)
    (s s' : pydict) (es es' : gset (string * string)) :
  outer_inv store done s es →
  for_starts fuel store (length done) starts s es = Returned (s', es') →
  outer_inv store (done ++ starts) s' es'.
Proof.
  revert done s es. induction starts as [|start starts IH];
    intros done s es Hinv; simpl.
  - intros [= <- <-]. by rewrite app_nil_r.
  - destruct (while_stack _ _ _ _) as [st| |] eqn:Hrun; [|done..].
    intros Hrest. rewrite cons_middle, app_assoc.
    apply (IH (done ++ [start]) (seen st) (edges st)).
    + eauto using outer_inv_step.
    + rewrite length_app, Nat.add_1_r. done.
Qed.

(** Whatever the store, a traversal that returns has marked exactly the auth
    chains and recorded exactly their edges. *)
Lemma traversal_returned (store : DataStore) (fuel : nat)
    (starts : list string) (s : pydict) (es : gset (string * string)) :
  auth_chain_traversal fuel store starts = Returned (s, es) →
  outer_inv store starts s es.
Proof.
  intros Hrun. apply (for_starts_inv store fuel starts [] [] s ∅ es).
  - apply outer_inv_init.
  - exact Hrun.
Qed.

(** ** Termination on an acyclic store *)

Lemma ranked_acyclic (store : DataStore) (rank : string → nat) :
  ranked store rank → acyclic store.
Proof.
  intros Hrank.
  assert (∀ e p, tc (auth_edge store) e p → rank p < rank e) as Hdrop.
  { intros e p Htc. induction Htc as [x y (ev & Hx & Hy)|x y z (ev & Hx & Hy) _ IH].
    - pose proof (Hrank x ev Hx) as Hall. simpl in Hall.
      rewrite Forall_forall in Hall. auto.
    - pose proof (Hrank x ev Hx) as Hall. simpl in Hall.
      rewrite Forall_forall in Hall. specialize (Hall y Hy). lia. }
  intros e Hcyc. apply Hdrop in Hcyc. lia.
Qed.

Lemma auth_closed_edge (store : DataStore) (e p : string) :
  auth_closed store → auth_edge store e p → is_Some (store !! p).
Proof.
  intros Hcl (ev & He & Hp). pose proof (Hcl e ev He) as Hall. simpl in Hall.
  rewrite Forall_forall in Hall. auto.
Qed.

Lemma frame_of_None (stk : list (string * nat)) (e : string) :
  frame_of stk e = None ↔ e ∉ stk.*1.
Proof.
  induction stk as [|[e' k] stk IH]; simpl.
  - split; [intros _ []%elem_of_nil|done].
  - rewrite not_elem_of_cons. case_decide; naive_solver.
Qed.

Lemma linked_reach (store : DataStore) (c : string) (k : nat)
    (rest : list (string * nat)) (e : string) :
  linked store ((c, k) :: rest) → e ∈ ((c, k) :: rest).*1 →
  rtc (auth_edge store) e c.
Proof.
  revert c k. induction rest as [|[p kp] rest IH]; intros c k Hl Hin.
  - apply list_elem_of_singleton in Hin. by subst.
  - simpl in Hl. destruct Hl as [(ev & Hp & Hc) Hl].
    change (e ∈ c :: ((p, kp) :: rest).*1) in Hin.
    apply elem_of_cons in Hin as [->|Hin]; [done|].
    eapply rtc_r; [by eapply IH|]. eauto using auth_edge_lookup.
Qed.

Lemma acyclic_push_fresh (store : DataStore) (eid pid : string) (pindex : nat)
    (rest : list (string * nat)) (event : EventBase) :
  acyclic store → linked store ((eid, pindex) :: rest) →
  store !! eid = Some event → auth_event_ids event !! pindex = Some pid →
  pid ∉ ((eid, pindex) :: rest).*1.
Proof.
  intros Hac Hl Hev Hpid Hin. apply (Hac pid).
  eapply tc_rtc_l; [by eapply linked_reach|].
  apply tc_once. eauto using auth_edge_lookup.
Qed.

Lemma stack_wf_visit (store : DataStore) (universe : list string) (i : nat)
    (st st' : dfs_state) :
  acyclic store → universe_closed store universe →
  stack_wf store universe (stack st) →
  dfs_visit store i st st' →
  stack_wf store universe (stack st').
Proof.
  intros Hac Hcl [Hl Hnd Hu] Hv.
  destruct Hv as [eid pindex rest event s s' es Hev Hlen Hm
                 |eid pindex rest event pid s es Hev Hpid Hbit
                 |eid pindex rest event pid s es Hev Hpid Hbit];
    simpl in *; unfold get_event in Hev.
  - split.
    + destruct rest as [|[p kp] rest]; [done|]. by destruct Hl.
    + by apply NoDup_cons in Hnd as [_ ?].
    + intros e He. apply Hu. by right.
  - done.
  - split.
    + simpl. split; [eauto|done].
    + change (NoDup (pid :: ((eid, pindex) :: rest).*1)).
      apply NoDup_cons. split; [|done].
      eauto using acyclic_push_fresh.
    + intros e [->|He]%elem_of_cons; [|auto].
      eapply Hcl; [apply Hu; by left|]. eauto using auth_edge_lookup.
Qed.

Lemma sum_list_fmap_elem {A} (f : A → nat) (l : list A) (x : A) :
  x ∈ l → f x ≤ sum_list (f <$> l).
Proof.
  induction l as [|y l IH]; [by intros ?%elem_of_nil|].
  intros [->|Hin]%elem_of_cons; csimpl; [lia|].
  specialize (IH Hin). lia.
Qed.

Lemma sum_list_fmap_le {A} (f g : A → nat) (l : list A) :
  (∀ y, y ∈ l → f y ≤ g y) → sum_list (f <$> l) ≤ sum_list (g <$> l).
Proof.
  induction l as [|y l IH]; intros Hle; csimpl; [done|].
  pose proof (Hle y ltac:(by left)).
  assert (sum_list (f <$> l) ≤ sum_list (g <$> l)).
  { apply IH. intros z Hz. apply Hle. by right. }
  lia.
Qed.

Lemma sum_list_fmap_lt {A} (f g : A → nat) (l : list A) (x : A) :
  x ∈ l → (∀ y, y ∈ l → f y ≤ g y) → f x < g x →
  sum_list (f <$> l) < sum_list (g <$> l).
Proof.
  induction l as [|y l IH]; [by intros ?%elem_of_nil|].
  intros Hin Hle Hlt. csimpl.
  assert (sum_list (f <$> l) ≤ sum_list (g <$> l)).
  { apply sum_list_fmap_le. intros z Hz. apply Hle. by right. }
  pose proof (Hle y ltac:(by left)).
  apply elem_of_cons in Hin as [->|Hin]; [lia|].
  assert (sum_list (f <$> l) < sum_list (g <$> l)); [|lia].
  apply IH; [done| |done]. intros z Hz. apply Hle. by right.
Qed.

Lemma work_visit (store : DataStore) (universe : list string) (i : nat)
    (st st' : dfs_state) :
  acyclic store → universe_closed store universe →
  stack_wf store universe (stack st) →
  dfs_visit store i st st' →
  work store i universe st' < work store i universe st.
Proof.
  intros Hac Hcl [Hl Hnd Hu] Hv. unfold work.
  destruct Hv as [eid pindex rest event s s' es Hev Hlen Hm
                 |eid pindex rest event pid s es Hev Hpid Hbit
                 |eid pindex rest event pid s es Hev Hpid Hbit];
    simpl in *; unfold get_event in Hev.
  - apply NoDup_cons in Hnd as [Hfresh Hnd].
    apply (sum_list_fmap_lt _ _ _ eid); [apply Hu; by left| |].
    + intros y _. unfold weight; cbn [stack seen frame_of]. case_decide as Hy.
      * subst y. apply frame_of_None in Hfresh. rewrite Hfresh.
        rewrite (marks_self _ _ _ _ Hm). lia.
      * destruct (frame_of rest y); [done|].
        rewrite (Hm y i), decide_False by naive_solver. done.
    + unfold weight; cbn [stack seen frame_of]. rewrite !decide_True by done.
      apply frame_of_None in Hfresh. rewrite Hfresh.
      rewrite (marks_self _ _ _ _ Hm). lia.
  - assert (pindex < auth_count store eid).
    { unfold auth_count. rewrite Hev. by eapply lookup_lt_Some. }
    apply (sum_list_fmap_lt _ _ _ eid); [apply Hu; by left| |].
    + intros y _. unfold weight; cbn [stack seen frame_of]. case_decide; [lia|done].
    + unfold weight; cbn [stack seen frame_of]. rewrite !decide_True by done. lia.
  - pose proof (acyclic_push_fresh _ _ _ _ _ _ Hac Hl Hev Hpid) as Hfresh.
    apply frame_of_None in Hfresh. simpl in Hfresh.
    assert (pid ∈ universe) as Hpu.
    { eapply Hcl; [apply Hu; by left|]. eauto using auth_edge_lookup. }
    apply (sum_list_fmap_lt _ _ _ pid); [done| |].
    + intros y _. unfold weight; cbn [stack seen frame_of].
      destruct (decide (pid = y)) as [->|Hne]; [|done].
      rewrite Hfresh, Hbit. lia.
    + unfold weight; cbn [stack seen frame_of]. rewrite !decide_True by done.
      rewrite Hfresh, Hbit. lia.
Qed.

Lemma elem_of_store_ids (store : DataStore) (e : string) :
  e ∈ store_ids store ↔ is_Some (store !! e).
Proof.
  unfold store_ids. rewrite list_elem_of_fmap. split.
  - intros ([k ev] & -> & Hin). apply elem_of_map_to_list in Hin. eauto.
  - intros [ev Hev]. exists (e, ev). split; [done|].
    by apply elem_of_map_to_list.
Qed.

Lemma store_ids_closed (store : DataStore) :
  auth_closed store → universe_closed store (store_ids store).
Proof.
  intros Hcl e p _ Hedge. apply elem_of_store_ids.
  eauto using auth_closed_edge.
Qed.

Lemma weight_le (store : DataStore) (i : nat) (st : dfs_state) (e : string) :
  weight store i st e ≤ 2 + auth_count store e.
Proof.
  unfold weight. destruct (frame_of (stack st) e); [lia|].
  destruct (marked i (seen st) e); lia.
Qed.

Lemma work_le_bound (store : DataStore) (i : nat) (st : dfs_state) :
  work store i (store_ids store) st ≤ work_bound store.
Proof.
  unfold work, work_bound, store_ids.
  rewrite <- list_fmap_compose.
  apply sum_list_fmap_le. intros [k ev] Hin. simpl.
  apply elem_of_map_to_list in Hin.
  etrans; [apply weight_le|]. unfold auth_count. by rewrite Hin.
Qed.

Lemma work_stack_pos (store : DataStore) (i : nat) (universe : list string)
    (st : dfs_state) (e : string) (k : nat) (rest : list (string * nat)) :
  stack st = (e, k) :: rest → e ∈ universe →
  0 < work store i universe st.
Proof.
  intros Hstk Hin.
  pose proof (sum_list_fmap_elem (weight store i st) universe e Hin) as Hle.
  unfold work. unfold weight in Hle at 1. rewrite Hstk in Hle.
  cbn [frame_of] in Hle. rewrite decide_True in Hle by done. lia.
Qed.

(** With fuel for the work still owed, the loop neither runs out of fuel nor
    fails, and makes no more passes than the work owed. *)
Lemma while_stack_total (store : DataStore) (i : nat) (fuel : nat)
    (st : dfs_state) :
  acyclic store → auth_closed store →
  stack_wf store (store_ids store) (stack st) →
  work store i (store_ids store) st ≤ fuel →
  ∃ st', while_stack fuel store (bitmask_of i) st = Returned st'
         ∧ passes fuel store (bitmask_of i) st
           ≤ work store i (store_ids store) st.
Proof.
  intros Hac Hcl. revert st.
  induction fuel as [|fuel IH]; intros st Hwf Hwork; simpl.
  - destruct (stack st) as [|[e k] rest] eqn:Hstk; [eexists; split; [done|lia]|].
    assert (e ∈ store_ids store) as Hin.
    { apply (swf_universe _ _ _ Hwf). by left. }
    pose proof (work_stack_pos store i (store_ids store) st e k rest Hstk Hin).
    lia.
  - destruct (stack st) as [|[e k] rest] eqn:Hstk; [eexists; split; [done|lia]|].
    assert (is_Some (store !! e)) as Hfetch.
    { apply elem_of_store_ids, (swf_universe _ _ _ Hwf). by left. }
    rewrite <- Hstk in Hwf.
    destruct (loop_body_fetchable store (bitmask_of i) st e k rest Hstk Hfetch)
      as [st1 Hbody].
    rewrite Hbody.
    assert (dfs_visit store i st st1) as Hv.
    { apply loop_body_visit; [by rewrite Hstk|done]. }
    pose proof (store_ids_closed store Hcl) as Hucl.
    pose proof (work_visit store _ i st st1 Hac Hucl Hwf Hv) as Hlt.
    destruct (IH st1) as (st' & Hrun & Hpass).
    + eauto using stack_wf_visit.
    + lia.
    + exists st'. split; [done|lia].
Qed.

Lemma stack_wf_init (store : DataStore) (start : string) :
  is_Some (store !! start) →
  stack_wf store (store_ids store) [(start, 0)].
Proof.
  intros Hs. split; simpl.
  - done.
  - apply NoDup_singleton.
  - intros e ->%list_elem_of_singleton. by apply elem_of_store_ids.
Qed.

Lemma while_stack_start_total (store : DataStore) (i : nat) (fuel : nat)
    (start : string) (s : pydict) (es : gset (string * string)) :
  acyclic store → auth_closed store → is_Some (store !! start) →
  work_bound store ≤ fuel →
  ∃ st', while_stack fuel store (bitmask_of i)
           {| seen := s; edges := es; stack := [(start, 0)] |} = Returned st'
         ∧ passes fuel store (bitmask_of i)
             {| seen := s; edges := es; stack := [(start, 0)] |}
           ≤ work_bound store.
Proof.
  intros Hac Hcl Hs Hfuel.
  set (st := {| seen := s; edges := es; stack := [(start, 0)] |}).
  pose proof (work_le_bound store i st) as Hle.
  destruct (while_stack_total store i fuel st Hac Hcl) as (st' & Hrun & Hp).
  - by apply stack_wf_init.
  - lia.
  - exists st'. split; [done|lia].
Qed.

Lemma for_starts_total (store : DataStore) (fuel : nat) (starts : list string)
    (i : nat) (s : pydict) (es : gset (string * string)) :
  acyclic store → all_fetchable store starts →
  work_bound store ≤ fuel →
  ∃ s' es', for_starts fuel store i starts s es = Returned (s', es').
Proof.
  intros Hac [Hstarts Hcl] Hfuel. revert i s es.
  induction starts as [|start starts IH]; intros i s es; simpl; [eauto|].
  apply Forall_cons in Hstarts as [Hs Hstarts].
  destruct (while_stack_start_total store i fuel start s es) as (st & -> & _);
    auto.
Qed.

(** ** The small room *)

Lemma demo_store_ranked : ranked demo_store demo_rank.
Proof. unfold ranked. apply (bool_decide_unpack _). by vm_compute. Qed.

Lemma demo_store_acyclic : acyclic demo_store.
Proof. exact (ranked_acyclic _ _ demo_store_ranked). Qed.

Lemma demo_store_closed : auth_closed demo_store.
Proof. unfold auth_closed. apply (bool_decide_unpack _). by vm_compute. Qed.

Lemma demo_store_fetchable (starts : list string) :
  Forall (λ s, s ∈ ["$create"; "$power"; "$member"; "$topic"]) starts →
  all_fetchable demo_store starts.
Proof.
  intros Hall. split; [|apply demo_store_closed].
  eapply Forall_impl; [exact Hall|]. intros s Hs. simpl in Hs.
  repeat (apply elem_of_cons in Hs as [->|Hs]; [by vm_compute; eauto|]).
  by apply elem_of_nil in Hs.
Qed.

Lemma ranked_chain_le (store : DataStore) (rank : string → nat) (s e : string) :
  ranked store rank → in_auth_chain store s e → rank e ≤ rank s.
Proof.
  intros Hrank Hch. induction Hch as [|x y z (ev & Hx & Hy) _ IH]; [done|].
  pose proof (Hrank x ev Hx) as Hall. simpl in Hall.
  rewrite Forall_forall in Hall. specialize (Hall y Hy). lia.
Qed.

(** ** Auth-chain membership *)

(** C1. On an acyclic store in which every referenced event can be fetched,
    the traversal over the starts [s_0 .. s_(n-1)] returns, and in the [seen]
    map it returns bit [i] of the entry of an event [e] is set exactly when
    [e] is reachable from [s_i] over zero or more auth-event edges. *)
Theorem auth_chain_membership (store : DataStore) (starts : list string)
    (fuel : nat) :
  acyclic store →
  all_fetchable store starts →
  work_bound store ≤ fuel →
  ∃ s es,
    auth_chain_traversal fuel store starts = Returned (s, es) ∧
    ∀ e i, Z.testbit (seen_get s e) (Z.of_nat i) = true ↔
           ∃ start, starts !! i = Some start ∧ in_auth_chain store start e.
Proof.
  intros Hac Hfetch Hfuel.
  destruct (for_starts_total store fuel starts 0 [] ∅ Hac Hfetch Hfuel)
    as (s & es & Hrun).
  exists s, es. split; [exact Hrun|].
  intros e i. apply (out_bits _ _ _ _ (traversal_returned _ _ _ _ _ Hrun)).
Qed.

Lemma auth_chain_membership_witness :
  ∃ s es,
    auth_chain_traversal 14 demo_store ["$topic"; "$member"]
      = Returned (s, es) ∧
    ∀ e i, Z.testbit (seen_get s e) (Z.of_nat i) = true ↔
           ∃ start, ["$topic"; "$member"] !! i = Some start
                    ∧ in_auth_chain demo_store start e.
Proof.
  apply auth_chain_membership.
  - exact demo_store_acyclic.
  - apply demo_store_fetchable. repeat constructor.
  - vm_compute. lia.
Defined.

Lemma bits_eq_3 (x : Z) :
  (∀ j, Z.testbit x (Z.of_nat j) = bool_decide (j < 2)) → x = 3%Z.
Proof.
  intros Hbits. apply Z.bits_inj'. intros n Hn.
  replace n with (Z.of_nat (Z.to_nat n)) by lia. rewrite Hbits.
  change 3%Z with (Z.ones 2). case_bool_decide.
  - by rewrite Z.ones_spec_low by lia.
  - by rewrite Z.ones_spec_high by lia.
Qed.

Lemma bits_eq_1 (x : Z) :
  (∀ j, Z.testbit x (Z.of_nat j) = bool_decide (j = 0)) → x = 1%Z.
Proof.
  intros Hbits. apply Z.bits_inj'. intros n Hn.
  replace n with (Z.of_nat (Z.to_nat n)) by lia. rewrite Hbits.
  change 1%Z with (Z.ones 1). case_bool_decide.
  - by rewrite Z.ones_spec_low by lia.
  - by rewrite Z.ones_spec_high by lia.
Qed.

(** C2. For the starts [[A; B]] with the auth chain of [B] a strict subset of
    the auth chain of [A], the traversal returns with both bits set (the bitmap
    is 3) on every event of [B]'s chain, and with only [A]'s bit set (the
    bitmap is 1) on every event that is in [A]'s chain alone. *)
Theorem subset_chain_bits (store : DataStore) (A B : string) (fuel : nat) :
  acyclic store →
  all_fetchable store [A; B] →
  work_bound store ≤ fuel →
  (∀ e, in_auth_chain store B e → in_auth_chain store A e) →
  (∃ e, in_auth_chain store A e ∧ ¬ in_auth_chain store B e) →
  ∃ s es,
    auth_chain_traversal fuel store [A; B] = Returned (s, es) ∧
    ∀ e, (in_auth_chain store B e → seen_get s e = 3%Z) ∧
         (in_auth_chain store A e → ¬ in_auth_chain store B e →
          seen_get s e = 1%Z).
Proof.
  intros Hac Hfetch Hfuel Hsub _.
  destruct (for_starts_total store fuel [A; B] 0 [] ∅ Hac Hfetch Hfuel)
    as (s & es & Hrun).
  exists s, es. split; [exact Hrun|].
  pose proof (out_bits _ _ _ _ (traversal_returned _ _ _ _ _ Hrun)) as Hbits.
  intros e. split.
  - intros HB. apply bits_eq_3. intros j.
    change (marked j s e = bool_decide (j < 2)).
    destruct (marked j s e) eqn:Hm.
    + apply Hbits in Hm as (x & Hx & _). apply lookup_lt_Some in Hx.
      simpl in Hx. by rewrite bool_decide_eq_true_2.
    + case_bool_decide as Hj; [|done]. rewrite <- Hm.
      apply Hbits. destruct j as [|[|j]]; [| |lia]; simpl; eauto.
  - intros HA HnB. apply bits_eq_1. intros j.
    change (marked j s e = bool_decide (j = 0)).
    destruct (marked j s e) eqn:Hm.
    + apply Hbits in Hm as (x & Hx & Hch).
      destruct j as [|[|j]]; simpl in Hx; simplify_eq; done.
    + case_bool_decide as Hj; [|done]. subst j. rewrite <- Hm.
      apply Hbits. simpl. eauto.
Qed.

Lemma subset_chain_bits_witness :
  ∃ s es,
    auth_chain_traversal 14 demo_store ["$topic"; "$member"]
      = Returned (s, es) ∧
    ∀ e, (in_auth_chain demo_store "$member" e → seen_get s e = 3%Z) ∧
         (in_auth_chain demo_store "$topic" e →
          ¬ in_auth_chain demo_store "$member" e → seen_get s e = 1%Z).
Proof.
  apply subset_chain_bits.
  - exact demo_store_acyclic.
  - apply demo_store_fetchable. repeat constructor.
  - vm_compute. lia.
  - intros e He. eapply rtc_l; [|exact He].
    eexists. split; [by vm_compute|]. simpl. set_solver.
  - exists "$topic". split; [unfold in_auth_chain; reflexivity|].
    intros Hch.
    apply (ranked_chain_le _ _ _ _ demo_store_ranked) in Hch.
    vm_compute in Hch. lia.
Defined.

(** ** The traversal, step by step *)






(** ** Missing events *)

Lemma loop_body_raises (store : DataStore) (bitmask : Z) (st : dfs_state)
    (e : exn) :
  loop_body store bitmask st = inl e → e = AssertionError.
Proof.
  unfold loop_body. destruct (stack st) as [|[eid pindex] rest]; [done|].
  destruct (get_event store eid) as [event|]; [|by intros [= <-]].
  case_decide as Hlen; [done|].
  destruct (auth_event_ids event !! pindex) eqn:Hpid.
  - by case_decide.
  - apply lookup_ge_None in Hpid. lia.
Qed.

Lemma while_stack_raises (store : DataStore) (bitmask : Z) (fuel : nat)
    (st : dfs_state) (e : exn) :
  while_stack fuel store bitmask st = Raised e → e = AssertionError.
Proof.
  revert st. induction fuel as [|fuel IH]; intros st; simpl.
  - by destruct (stack st).
  - destruct (stack st); [done|].
    destruct (loop_body store bitmask st) as [e'|st1] eqn:Hbody; [|apply IH].
    intros [= <-]. eauto using loop_body_raises.
Qed.

Lemma for_starts_raises (store : DataStore) (fuel : nat) (starts : list string)
    (i : nat) (s : pydict) (es : gset (string * string)) (e : exn) :
  for_starts fuel store i starts s es = Raised e → e = AssertionError.
Proof.
  revert i s es. induction starts as [|start starts IH]; intros i s es; simpl;
    [done|].
  destruct (while_stack _ _ _ _) as [st|e'|] eqn:Hrun; [apply IH| |done].
  intros [= <-]. eauto using while_stack_raises.
Qed.

Lemma passes_le_work (store : DataStore) (universe : list string) (i : nat)
    (fuel : nat) (st : dfs_state) :
  acyclic store → universe_closed store universe →
  stack_wf store universe (stack st) →
  passes fuel store (bitmask_of i) st ≤ work store i universe st.
Proof.
  intros Hac Hcl. revert st. induction fuel as [|fuel IH]; intros st Hwf; simpl.
  - destruct (stack st); lia.
  - destruct (stack st) as [|[e k] rest] eqn:Hstk; [lia|].
    assert (e ∈ universe) as Hin by (apply (swf_universe _ _ _ Hwf); by left).
    rewrite <- Hstk in Hwf.
    pose proof (work_stack_pos store i universe st e k rest Hstk Hin).
    destruct (loop_body store (bitmask_of i) st) as [|st1] eqn:Hbody; [lia|].
    assert (dfs_visit store i st st1) as Hv.
    { apply loop_body_visit; [by rewrite Hstk|done]. }
    pose proof (work_visit store universe i st st1 Hac Hcl Hwf Hv).
    specialize (IH st1 (stack_wf_visit _ _ _ _ _ Hac Hcl Hwf Hv)). lia.
Qed.

Lemma while_stack_no_timeout (store : DataStore) (universe : list string)
    (i : nat) (fuel : nat) (st : dfs_state) :
  acyclic store → universe_closed store universe →
  stack_wf store universe (stack st) →
  work store i universe st ≤ fuel →
  while_stack fuel store (bitmask_of i) st ≠ OutOfFuel.
Proof.
  intros Hac Hcl. revert st.
  induction fuel as [|fuel IH]; intros st Hwf Hwork; simpl.
  - destruct (stack st) as [|[e k] rest] eqn:Hstk; [done|].
    assert (e ∈ universe) as Hin by (apply (swf_universe _ _ _ Hwf); by left).
    pose proof (work_stack_pos store i universe st e k rest Hstk Hin). lia.
  - destruct (stack st) as [|[e k] rest] eqn:Hstk; [done|].
    rewrite <- Hstk in Hwf.
    destruct (loop_body store (bitmask_of i) st) as [|st1] eqn:Hbody; [done|].
    assert (dfs_visit store i st st1) as Hv.
    { apply loop_body_visit; [by rewrite Hstk|done]. }
    pose proof (work_visit store universe i st st1 Hac Hcl Hwf Hv).
    apply IH; [eauto using stack_wf_visit|lia].
Qed.

Lemma elem_of_auth_targets (store : DataStore) (p : string) :
  p ∈ auth_targets store ↔ ∃ e, auth_edge store e p.
Proof.
  unfold auth_targets, auth_edge. rewrite list_elem_of_join. split.
  - intros (l & Hp & Hl). apply list_elem_of_fmap in Hl as (ev & -> & Hev).
    apply list_elem_of_fmap in Hev as ([e ev'] & -> & Hin).
    apply elem_of_map_to_list in Hin. eauto.
  - intros (e & ev & He & Hp). exists (auth_event_ids ev). split; [done|].
    apply list_elem_of_fmap. exists ev. split; [done|].
    apply list_elem_of_fmap. exists (e, ev). split; [done|].
    by apply elem_of_map_to_list.
Qed.

Lemma mentioned_ids_closed (store : DataStore) (starts : list string) :
  universe_closed store (mentioned_ids store starts).
Proof.
  intros e p _ Hedge. unfold mentioned_ids. rewrite !elem_of_app.
  right. right. apply elem_of_auth_targets. eauto.
Qed.

Lemma work_le_open_bound (store : DataStore) (starts : list string) (i : nat)
    (st : dfs_state) :
  work store i (mentioned_ids store starts) st ≤ open_work_bound store starts.
Proof.
  apply sum_list_fmap_le. intros e _. apply weight_le.
Qed.

Lemma for_starts_no_timeout (store : DataStore) (all : list string)
    (fuel : nat) (starts : list string) (i : nat) (s : pydict)
    (es : gset (string * string)) :
  acyclic store → open_work_bound store all ≤ fuel →
  starts ⊆ all →
  for_starts fuel store i starts s es ≠ OutOfFuel.
Proof.
  intros Hac Hfuel. revert i s es.
  induction starts as [|start starts IH]; intros i s es Hsub; simpl; [done|].
  destruct (while_stack _ _ _ _) as [st| |] eqn:Hrun; [|done|].
  - apply IH. set_solver.
  - exfalso. revert Hrun.
    apply (while_stack_no_timeout store (mentioned_ids store all));
      [done|apply mentioned_ids_closed| |].
    + split; simpl; [done|apply NoDup_singleton|].
      intros e ->%list_elem_of_singleton. unfold mentioned_ids.
      apply elem_of_app. left. apply Hsub. by left.
    + etrans; [apply work_le_open_bound|done].
Qed.

Lemma outer_inv_stored (store : DataStore) (starts : list string) (s : pydict)
    (es : gset (string * string)) (start e : string) :
  outer_inv store starts s es →
  start ∈ starts → in_auth_chain store start e → is_Some (store !! e).
Proof.
  intros Hinv [i Hi]%list_elem_of_lookup_1 Hch.
  assert (marked i s e = true) as Hm.
  { apply (out_bits _ _ _ _ Hinv). eauto. }
  apply (wf_stored _ _ (out_wf _ _ _ _ Hinv)).
  unfold marked, seen_get in Hm.
  destruct (dict_lookup s e) as [v|] eqn:Hv.
  - apply dict_lookup_elem_of in Hv. apply list_elem_of_fmap.
    by exists (e, v).
  - simpl in Hm. by rewrite Z.bits_0 in Hm.
Qed.

(** C4. When some event referenced by the traversal (a start event or an auth
    event reachable from one) cannot be fetched, no run of the traversal
    returns a membership map; on an acyclic store the run ends in the failed
    assertion; and the pass that finds the missing event on top of the stack
    is the one that raises it. *)
Theorem missing_event_fatal (store : DataStore) (starts : list string)
    (start e : string) :
  start ∈ starts →
  in_auth_chain store start e →
  get_event store e = None →
  (∀ fuel s es, auth_chain_traversal fuel store starts ≠ Returned (s, es))
  ∧ (acyclic store → ∀ fuel, open_work_bound store starts ≤ fuel →
     auth_chain_traversal fuel store starts = Raised AssertionError)
  ∧ (∀ bitmask st pindex rest, stack st = (e, pindex) :: rest →
     loop_body store bitmask st = inl AssertionError
     ∧ ∀ fuel, while_stack (S fuel) store bitmask st = Raised AssertionError).
Proof.
  intros Hstart Hch Hmiss. unfold get_event in Hmiss.
  assert (∀ fuel s es,
            auth_chain_traversal fuel store starts ≠ Returned (s, es)) as Hnot.
  { intros fuel s es Hrun. apply traversal_returned in Hrun.
    destruct (outer_inv_stored _ _ _ _ _ _ Hrun Hstart Hch) as [ev Hev].
    congruence. }
  split; [exact Hnot|]. split.
  - intros Hac fuel Hfuel.
    destruct (auth_chain_traversal fuel store starts) as [[s es]|exc|] eqn:Hrun.
    + by apply Hnot in Hrun.
    + apply for_starts_raises in Hrun. by subst.
    + exfalso. revert Hrun. by apply (for_starts_no_timeout store starts).
  - intros bitmask st pindex rest Hstk.
    pose proof (loop_body_missing store bitmask st e pindex rest Hstk Hmiss)
      as Hbody.
    split; [done|]. intros fuel. simpl. by rewrite Hstk, Hbody.
Qed.

Lemma missing_event_fatal_witness :
  (∀ fuel s es,
     auth_chain_traversal fuel partial_store ["$topic"; "$member"]
       ≠ Returned (s, es))
  ∧ (acyclic partial_store → ∀ fuel,
     open_work_bound partial_store ["$topic"; "$member"] ≤ fuel →
     auth_chain_traversal fuel partial_store ["$topic"; "$member"]
       = Raised AssertionError)
  ∧ (∀ bitmask st pindex rest, stack st = ("$power", pindex) :: rest →
     loop_body partial_store bitmask st = inl AssertionError
     ∧ ∀ fuel, while_stack (S fuel) partial_store bitmask st
               = Raised AssertionError).
Proof.
  apply (missing_event_fatal partial_store _ "$topic" "$power").
  - by left.
  - apply rtc_once. eexists. split; [by vm_compute|]. simpl. set_solver.
  - by vm_compute.
Defined.

(** ** Bounded work *)

Lemma remove_dups_length_le (l : list string) :
  length (remove_dups l) ≤ length l.
Proof.
  induction l as [|x l IH]; simpl; [done|]. case_decide; simpl; lia.
Qed.

Lemma sum_list_nodup_le (f : string → nat) (l k : list string) :
  NoDup l → (∀ x, x ∈ l → f x ≠ 0 → x ∈ k) →
  sum_list (f <$> l) ≤ sum_list (f <$> k).
Proof.
  intros Hnd. revert k. induction Hnd as [|x l Hx Hnd IH]; intros k Hin; csimpl.
  - lia.
  - destruct (decide (f x = 0)) as [Hz|Hnz].
    + rewrite Hz. simpl. apply IH. intros y Hy. apply Hin. by right.
    + destruct (proj1 (elem_of_Permutation k x)) as [k' Hk'].
      { apply Hin; [by left|done]. }
      rewrite Hk'. csimpl. apply Nat.add_le_mono_l. apply IH.
      intros y Hy Hfy.
      assert (y ∈ x :: k') as Hyk.
      { rewrite <- Hk'. apply Hin; [by right|done]. }
      apply elem_of_cons in Hyk as [->|Hyk]; [done|done].
Qed.

Lemma sum_list_fmap_plus (f : string → nat) (c : nat) (l : list string) :
  sum_list ((λ e, c + f e) <$> l) = c * length l + sum_list (f <$> l).
Proof. induction l as [|x l IH]; csimpl; lia. Qed.

Lemma auth_count_sum (store : DataStore) :
  sum_list (auth_count store <$> store_ids store) = total_auth_edges store.
Proof.
  unfold total_auth_edges, auth_targets, store_ids.
  rewrite length_join, <- !list_fmap_compose. f_equal.
  apply list_fmap_ext. intros j [e ev] Hj. simpl.
  apply list_elem_of_lookup_2, elem_of_map_to_list in Hj.
  unfold auth_count. by rewrite Hj.
Qed.

Lemma NoDup_store_ids (store : DataStore) : NoDup (store_ids store).
Proof. apply NoDup_fst_map_to_list. Qed.

Lemma work_bound_eq (store : DataStore) :
  work_bound store = 2 * size store + total_auth_edges store.
Proof.
  trans (sum_list ((λ e, 2 + auth_count store e) <$> store_ids store)).
  - unfold work_bound, store_ids. rewrite <- list_fmap_compose. f_equal.
    apply list_fmap_ext. intros j [e ev] Hj. simpl.
    apply list_elem_of_lookup_2, elem_of_map_to_list in Hj.
    unfold auth_count. by rewrite Hj.
  - rewrite sum_list_fmap_plus, auth_count_sum. unfold store_ids.
    by rewrite length_fmap, length_map_to_list.
Qed.

Lemma edge_universe_closed (store : DataStore) (start : string) :
  universe_closed store (edge_universe store start).
Proof.
  intros e p _ Hedge. unfold edge_universe.
  apply elem_of_remove_dups. right. apply elem_of_auth_targets. eauto.
Qed.

Lemma edge_work_le (store : DataStore) (start : string) (i : nat)
    (st : dfs_state) :
  work store i (edge_universe store start) st ≤ edge_bound store.
Proof.
  unfold work. etrans.
  { apply (sum_list_fmap_le _ (λ e, 2 + auth_count store e)).
    intros e _. apply weight_le. }
  rewrite sum_list_fmap_plus.
  assert (length (edge_universe store start) ≤ S (total_auth_edges store)).
  { unfold edge_universe. etrans; [apply remove_dups_length_le|]. done. }
  assert (sum_list (auth_count store <$> edge_universe store start)
          ≤ total_auth_edges store).
  { rewrite <- auth_count_sum. apply sum_list_nodup_le.
    - apply NoDup_remove_dups.
    - intros x _ Hx. apply elem_of_store_ids. unfold auth_count in Hx.
      destruct (store !! x); [eauto|done]. }
  unfold edge_bound. lia.
Qed.

Lemma passes_le_edge_bound (store : DataStore) (i : nat) (fuel : nat)
    (start : string) (s : pydict) (es : gset (string * string)) :
  acyclic store →
  passes fuel store (bitmask_of i)
    {| seen := s; edges := es; stack := [(start, 0)] |} ≤ edge_bound store.
Proof.
  intros Hac. etrans; [|apply (edge_work_le store start i)].
  apply passes_le_work; [done|apply edge_universe_closed|].
  split; simpl; [done|apply NoDup_singleton|].
  intros e ->%list_elem_of_singleton. unfold edge_universe.
  apply elem_of_remove_dups. by left.
Qed.

Lemma total_passes_le (store : DataStore) (fuel : nat) (starts : list string)
    (i : nat) (s : pydict) (es : gset (string * string)) :
  acyclic store →
  total_passes fuel store i starts s es ≤ length starts * edge_bound store.
Proof.
  intros Hac. revert i s es.
  induction starts as [|start starts IH]; intros i s es; simpl; [done|].
  pose proof (passes_le_edge_bound store i fuel start s es Hac).
  destruct (while_stack _ _ _ _) as [st| |]; [|lia..].
  specialize (IH (S i) (seen st) (edges st)). lia.
Qed.

(** The events the loop pushes are new to the start and to the stack, and no
    event is pushed twice. *)
Lemma push_log_fresh (store : DataStore) (universe : list string) (i : nat)
    (fuel : nat) (st : dfs_state) :
  acyclic store → universe_closed store universe →
  stack_wf store universe (stack st) →
  NoDup (push_log fuel store (bitmask_of i) st)
  ∧ ∀ e, e ∈ push_log fuel store (bitmask_of i) st →
         marked i (seen st) e = false ∧ e ∉ (stack st).*1.
Proof.
  intros Hac Hcl. revert st. induction fuel as [|fuel IH]; intros st Hwf; simpl.
  - destruct (stack st); (split; [constructor|by intros e ?%elem_of_nil]).
  - destruct st as [s es [|[eid pindex] rest]]; simpl in *;
      [split; [constructor|by intros e ?%elem_of_nil]|].
    set (st := {| seen := s; edges := es; stack := (eid, pindex) :: rest |}).
    destruct (loop_body store (bitmask_of i) st) as [|st1] eqn:Hbody;
      [split; [apply NoDup_nil_2|by intros x ?%elem_of_nil]|].
    assert (dfs_visit store i st st1) as Hv by (by apply loop_body_visit).
    destruct (IH st1 (stack_wf_visit store universe i st st1 Hac Hcl Hwf Hv))
      as [Hnd Hlog].
    unfold pushed. rewrite Hbody. clear Hbody IH.
    destruct Hwf as [Hl Hsnd Hu].
    inversion Hv as [? ? ? event ? s' ? Hev Hlen Hm
                    |? ? ? event pid ? ? Hev Hpid Hbit
                    |? ? ? event pid ? ? Hev Hpid Hbit];
      subst; simpl in *; unfold get_event in Hev.
    + rewrite decide_False by lia. simpl. split; [done|].
      intros e He. destruct (Hlog e He) as [Hme Hnin]. split.
      * destruct (marked i s e) eqn:Hms; [|done].
        by rewrite (marks_mono _ _ _ _ _ _ Hm Hms) in Hme.
      * apply not_elem_of_cons. split; [|done]. intros ->.
        by rewrite (marks_self _ _ _ _ Hm) in Hme.
    + rewrite decide_False by lia. simpl. split; [done|]. exact Hlog.
    + rewrite decide_True by lia. simpl.
      pose proof (acyclic_push_fresh _ _ _ _ _ _ Hac Hl Hev Hpid) as Hfresh.
      split.
      * apply NoDup_cons. split; [|done]. intros Hin.
        destruct (Hlog pid Hin) as [_ Hnin]. apply Hnin. by left.
      * intros e [->|He]%elem_of_cons; [done|].
        destruct (Hlog e He) as [Hme Hnin]. split; [done|].
        intros Hin. apply Hnin. by right.
Qed.

Lemma pushed_unmarked (store : DataStore) (i : nat) (st : dfs_state)
    (e : string) :
  pushed store (bitmask_of i) st = Some e → marked i (seen st) e = false.
Proof.
  unfold pushed.
  destruct (loop_body store (bitmask_of i) st) as [|st1] eqn:Hbody; [done|].
  destruct (stack st) as [|f stk] eqn:Hstk.
  - unfold loop_body in Hbody. rewrite Hstk in Hbody. simplify_eq.
    rewrite Hstk. by case_decide.
  - assert (dfs_visit store i st st1) as Hv.
    { apply loop_body_visit; [by rewrite Hstk|done]. }
    rewrite <- Hstk. clear Hstk Hbody.
    destruct Hv as [eid pindex rest event s s' es Hev Hlen Hm
                   |eid pindex rest event pid s es Hev Hpid Hbit
                   |eid pindex rest event pid s es Hev Hpid Hbit]; simpl.
    + by rewrite decide_False by lia.
    + by rewrite decide_False by lia.
    + rewrite decide_True by lia. simpl. by intros [= <-].
Qed.

(** C5. On an acyclic store with every event fetchable the traversal
    returns.  In the loop for a start [i], whatever [seen] and [edges] it is
    entered with, the loop returns, no event is pushed twice (the start counts
    as pushed once), an event is only pushed while it does not carry bit [i],
    and the loop makes at most [3 * edges + 2] passes; so all rounds together
    make at most [starts * (3 * edges + 2)] passes, [edges] being the number
    of auth edges of the store. *)
Theorem bounded_retraversal (store : DataStore) (starts : list string)
    (fuel : nat) :
  acyclic store →
  all_fetchable store starts →
  work_bound store ≤ fuel →
  (∃ s es, auth_chain_traversal fuel store starts = Returned (s, es))
  ∧ (∀ i start s es, start ∈ starts →
       let st0 := {| seen := s; edges := es; stack := [(start, 0)] |} in
       (∃ st', while_stack fuel store (bitmask_of i) st0 = Returned st')
       ∧ NoDup (start :: push_log fuel store (bitmask_of i) st0)
       ∧ passes fuel store (bitmask_of i) st0
         ≤ 3 * total_auth_edges store + 2)
  ∧ (∀ i st e, pushed store (bitmask_of i) st = Some e →
       marked i (seen st) e = false)
  ∧ total_passes fuel store 0 starts [] ∅
    ≤ length starts * (3 * total_auth_edges store + 2).
Proof.
  intros Hac Hfetch Hfuel. split; [|split; [|split]].
  - by apply for_starts_total.
  - intros i start s es Hstart st0. destruct Hfetch as [Hstarts Hcl].
    rewrite Forall_forall in Hstarts. specialize (Hstarts start Hstart).
    split; [|split].
    + destruct (while_stack_start_total store i fuel start s es Hac Hcl
                  Hstarts Hfuel) as (st' & Hrun & _). eauto.
    + destruct (push_log_fresh store (store_ids store) i fuel st0 Hac
                  (store_ids_closed store Hcl) (stack_wf_init store start Hstarts))
        as [Hnd Hlog].
      apply NoDup_cons. split; [|done]. intros Hin.
      destruct (Hlog start Hin) as [_ Hnin]. apply Hnin. by left.
    + by apply passes_le_edge_bound.
  - intros i st e. apply pushed_unmarked.
  - by apply total_passes_le.
Qed.

Lemma bounded_retraversal_witness :
  (∃ s es, auth_chain_traversal 14 demo_store ["$topic"; "$member"]
           = Returned (s, es))
  ∧ (∀ i start s es, start ∈ ["$topic"; "$member"] →
       let st0 := {| seen := s; edges := es; stack := [(start, 0)] |} in
       (∃ st', while_stack 14 demo_store (bitmask_of i) st0 = Returned st')
       ∧ NoDup (start :: push_log 14 demo_store (bitmask_of i) st0)
       ∧ passes 14 demo_store (bitmask_of i) st0
         ≤ 3 * total_auth_edges demo_store + 2)
  ∧ (∀ i st e, pushed demo_store (bitmask_of i) st = Some e →
       marked i (seen st) e = false)
  ∧ total_passes 14 demo_store 0 ["$topic"; "$member"] [] ∅
    ≤ length ["$topic"; "$member"] * (3 * total_auth_edges demo_store + 2).
Proof.
  apply bounded_retraversal.
  - exact demo_store_acyclic.
  - apply demo_store_fetchable. repeat constructor.
  - vm_compute. lia.
Defined.

(** ** The edge set *)

Lemma loop_body_edges (store : DataStore) (bitmask : Z) (st st' : dfs_state) :
  loop_body store bitmask st = inr st' →
  edges st' = edges st
  ∨ ∃ eid pindex rest event pid,
      stack st = (eid, pindex) :: rest
      ∧ get_event store eid = Some event
      ∧ auth_event_ids event !! pindex = Some pid
      ∧ edges st' = {[ (eid, pid) ]} ∪ edges st
      ∧ seen st' = seen st.
Proof.
  unfold loop_body.
  destruct (stack st) as [|[eid pindex] rest] eqn:Hstk; [intros [= <-]; by left|].
  destruct (get_event store eid) as [event|] eqn:Hev; [|done].
  case_decide; [intros [= <-]; by left|].
  destruct (auth_event_ids event !! pindex) as [pid|] eqn:Hpid; [|done].
  case_decide; intros [= <-]; right; exists eid, pindex, rest, event, pid; done.
Qed.

Lemma while_stack_edges_irrelevant (store : DataStore) (bitmask : Z)
    (fuel : nat) (s : pydict) (es1 es2 : gset (string * string))
    (stk : list (string * nat)) :
  same_seen
    (while_stack fuel store bitmask {| seen := s; edges := es1; stack := stk |})
    (while_stack fuel store bitmask {| seen := s; edges := es2; stack := stk |}).
Proof.
  revert s es1 es2 stk. induction fuel as [|fuel IH]; intros s es1 es2 stk;
    simpl.
  - by destruct stk.
  - destruct stk as [|[eid pindex] rest]; [done|].
    unfold loop_body; simpl.
    destruct (get_event store eid) as [event|]; [|done].
    case_decide; [apply IH|].
    destruct (auth_event_ids event !! pindex) as [pid|]; [|done].
    case_decide; apply IH.
Qed.

Lemma for_starts_edges_irrelevant (store : DataStore) (fuel : nat)
    (starts : list string) (i : nat) (s s' : pydict)
    (es1 es2 es1' : gset (string * string)) :
  for_starts fuel store i starts s es1 = Returned (s', es1') →
  ∃ es2', for_starts fuel store i starts s es2 = Returned (s', es2').
Proof.
  revert i s es1 es2. induction starts as [|start starts IH];
    intros i s es1 es2; simpl.
  - intros [= <- <-]. eauto.
  - pose proof (while_stack_edges_irrelevant store (bitmask_of i) fuel s
                  es1 es2 [(start, 0)]) as Hsame.
    destruct (while_stack fuel store (bitmask_of i)
                {| seen := s; edges := es1; stack := [(start, 0)] |})
      as [st1| |]; [|done..].
    destruct (while_stack fuel store (bitmask_of i)
                {| seen := s; edges := es2; stack := [(start, 0)] |})
      as [st2| |]; [|done..].
    destruct Hsame as [-> _]. apply IH.
Qed.

(** C6. After the traversal the edge set holds exactly the pairs
    (event, direct auth event) of the events reached from some start, that is
    of the events whose auth slots the search examined; being a set it holds
    each pair once however many starts came across it.  A pass that records a
    pair records the pair under examination and leaves every bitmap as it
    was, and the bitmaps returned do not depend on the edges recorded. *)
Theorem edge_set_postcondition (store : DataStore) (starts : list string)
    (fuel : nat) :
  acyclic store →
  all_fetchable store starts →
  work_bound store ≤ fuel →
  ∃ s es,
    auth_chain_traversal fuel store starts = Returned (s, es)
    ∧ (∀ e p, (e, p) ∈ es ↔
         auth_edge store e p
         ∧ ∃ start, start ∈ starts ∧ in_auth_chain store start e)
    ∧ NoDup (elements es)
    ∧ (∀ es0, ∃ es', for_starts fuel store 0 starts [] es0 = Returned (s, es'))
    ∧ (∀ bitmask st st', loop_body store bitmask st = inr st' →
         edges st' = edges st
         ∨ ∃ eid pindex rest event pid,
             stack st = (eid, pindex) :: rest
             ∧ get_event store eid = Some event
             ∧ auth_event_ids event !! pindex = Some pid
             ∧ edges st' = {[ (eid, pid) ]} ∪ edges st
             ∧ seen st' = seen st).
Proof.
  intros Hac Hfetch Hfuel.
  destruct (for_starts_total store fuel starts 0 [] ∅ Hac Hfetch Hfuel)
    as (s & es & Hrun).
  exists s, es. split; [exact Hrun|]. split; [|split; [|split]].
  - apply (out_edges _ _ _ _ (traversal_returned _ _ _ _ _ Hrun)).
  - apply NoDup_elements.
  - intros es0. eapply for_starts_edges_irrelevant. exact Hrun.
  - apply loop_body_edges.
Qed.

Lemma edge_set_postcondition_witness :
  ∃ s es,
    auth_chain_traversal 14 demo_store ["$topic"; "$member"] = Returned (s, es)
    ∧ (∀ e p, (e, p) ∈ es ↔
         auth_edge demo_store e p
         ∧ ∃ start, start ∈ ["$topic"; "$member"]
                    ∧ in_auth_chain demo_store start e)
    ∧ NoDup (elements es)
    ∧ (∀ es0, ∃ es', for_starts 14 demo_store 0 ["$topic"; "$member"] [] es0
                     = Returned (s, es'))
    ∧ (∀ bitmask st st', loop_body demo_store bitmask st = inr st' →
         edges st' = edges st
         ∨ ∃ eid pindex rest event pid,
             stack st = (eid, pindex) :: rest
             ∧ get_event demo_store eid = Some event
             ∧ auth_event_ids event !! pindex = Some pid
             ∧ edges st' = {[ (eid, pid) ]} ∪ edges st
             ∧ seen st' = seen st).
Proof.
  apply edge_set_postcondition.
  - exact demo_store_acyclic.
  - apply demo_store_fetchable. repeat constructor.
  - vm_compute. lia.
Defined.

(** ** Colouring the nodes *)

Lemma py_index_colors_Some (v : Z) (c : string) :
  py_index colors v = Some c → (v ≤ 3)%Z.
Proof.
  unfold py_index. case_decide; [|lia].
  intros Hc%lookup_lt_Some. simpl in Hc. lia.
Qed.

Lemma py_index_colors_None (v : Z) : (4 ≤ v)%Z → py_index colors v = None.
Proof.
  intros Hv. unfold py_index. rewrite decide_True by lia.
  apply lookup_ge_None. simpl. lia.
Qed.

Lemma py_index_colors_small (v : Z) :
  (0 ≤ v ≤ 3)%Z → is_Some (py_index colors v).
Proof.
  intros Hv. unfold py_index. rewrite decide_True by lia.
  apply lookup_lt_is_Some. simpl. lia.
Qed.

Lemma high_bit_ge_4 (v : Z) (j : nat) :
  (0 ≤ v)%Z → 2 ≤ j → Z.testbit v (Z.of_nat j) = true → (4 ≤ v)%Z.
Proof.
  intros Hv Hj Hbit. destruct (decide (4 ≤ v)%Z) as [|Hsmall]; [done|].
  exfalso. rewrite Z.bits_above_log2 in Hbit; [done|done|].
  assert (Z.log2 v ≤ Z.log2 3)%Z by (apply Z.log2_le_mono; lia).
  change (Z.log2 3) with 1%Z in *. lia.
Qed.

Lemma ge_4_high_bit (v : Z) :
  (4 ≤ v)%Z → ∃ j, 2 ≤ j ∧ Z.testbit v (Z.of_nat j) = true.
Proof.
  intros Hv. exists (Z.to_nat (Z.log2 v)).
  assert (Z.log2 4 ≤ Z.log2 v)%Z by (apply Z.log2_le_mono; lia).
  change (Z.log2 4) with 2%Z in *. split; [lia|].
  rewrite Z2Nat.id by lia. apply Z.bit_log2. lia.
Qed.

Lemma add_nodes_returned (q : string → string) (store : DataStore)
    (items : pydict) (acc ns : list Node) :
  add_nodes q store items acc = Returned ns →
  ∀ eid v, (eid, v) ∈ items → is_Some (py_index colors v).
Proof.
  revert acc. induction items as [|[eid0 v0] items IH]; intros acc; simpl.
  - intros _ eid v []%elem_of_nil.
  - destruct (get_event store eid0); [|done].
    destruct (py_index colors v0) as [c|] eqn:Hc; [|done].
    intros Hrun eid v [Heq|Hin]%elem_of_cons; [simplify_eq; eauto|].
    eapply IH; eauto.
Qed.

Lemma add_nodes_total (q : string → string) (store : DataStore)
    (items : pydict) (acc : list Node) :
  (∀ eid v, (eid, v) ∈ items → is_Some (store !! eid)) →
  (∃ ns, add_nodes q store items acc = Returned ns)
  ∨ add_nodes q store items acc = Raised IndexError.
Proof.
  revert acc. induction items as [|[eid0 v0] items IH]; intros acc Hst; simpl.
  - left. eauto.
  - destruct (Hst eid0 v0) as [ev Hev]; [by left|].
    unfold get_event. rewrite Hev.
    destruct (py_index colors v0); [|by right].
    apply IH. intros eid v Hin. eapply Hst. by right.
Qed.

Lemma add_nodes_ok (q : string → string) (store : DataStore)
    (items : pydict) (acc : list Node) :
  (∀ eid v, (eid, v) ∈ items →
     is_Some (store !! eid) ∧ is_Some (py_index colors v)) →
  ∃ ns, add_nodes q store items acc = Returned ns.
Proof.
  revert acc. induction items as [|[eid0 v0] items IH]; intros acc Hok; simpl.
  - eauto.
  - destruct (Hok eid0 v0) as [[ev Hev] [c Hc]]; [by left|].
    unfold get_event. rewrite Hev, Hc.
    apply IH. intros eid v Hin. apply Hok. by right.
Qed.

Lemma seen_entry_get (store : DataStore) (s : pydict) (eid : string) (v : Z) :
  seen_wf store s → (eid, v) ∈ s → seen_get s eid = v.
Proof.
  intros Hwf Hin. unfold seen_get.
  by rewrite (dict_elem_of_lookup s eid v (wf_nodup _ _ Hwf) Hin).
Qed.

Lemma seen_get_entry (s : pydict) (eid : string) :
  seen_get s eid ≠ 0%Z → (eid, seen_get s eid) ∈ s.
Proof.
  unfold seen_get. destruct (dict_lookup s eid) as [v|] eqn:Hv; [|done].
  intros _. by apply dict_lookup_elem_of.
Qed.

(** C9. The colour of a node is looked up in a list of four colours by the
    whole bitmap.  So [dump_auth_chains] returns only if every bitmap is at
    most 3; with a third (or later) start that has some event in its auth
    chain, and it always has, the lookup raises [IndexError]; with at most two
    starts the graph is built. *)
Theorem colour_lookup_bound (q : string → string) (store : DataStore)
    (starts : list string) (fuel : nat) :
  acyclic store →
  all_fetchable store starts →
  work_bound store ≤ fuel →
  (∀ g, dump_auth_chains q fuel store starts = Returned g →
     ∃ s es, auth_chain_traversal fuel store starts = Returned (s, es)
             ∧ ∀ eid bitmask, (eid, bitmask) ∈ s → (bitmask ≤ 3)%Z)
  ∧ (∀ i start e, 2 ≤ i → starts !! i = Some start →
       in_auth_chain store start e →
       dump_auth_chains q fuel store starts = Raised IndexError)
  ∧ (3 ≤ length starts →
       dump_auth_chains q fuel store starts = Raised IndexError)
  ∧ (length starts ≤ 2 →
       ∃ g, dump_auth_chains q fuel store starts = Returned g).
Proof.
  intros Hac Hfetch Hfuel.
  destruct (for_starts_total store fuel starts 0 [] ∅ Hac Hfetch Hfuel)
    as (s & es & Hrun).
  pose proof (traversal_returned _ _ _ _ _ Hrun) as Hinv.
  pose proof (out_wf _ _ _ _ Hinv) as Hwf.
  assert (∀ i start e, 2 ≤ i → starts !! i = Some start →
            in_auth_chain store start e →
            dump_auth_chains q fuel store starts = Raised IndexError) as Hfail.
  { intros i start e Hi Hstart Hch. unfold dump_auth_chains.
    unfold auth_chain_traversal. rewrite Hrun.
    assert (marked i s e = true) as Hm by (apply (out_bits _ _ _ _ Hinv); eauto).
    assert (4 ≤ seen_get s e)%Z as Hbig.
    { eapply high_bit_ge_4; [apply (wf_nonneg _ _ Hwf)|exact Hi|exact Hm]. }
    assert ((e, seen_get s e) ∈ s) as Hin by (apply seen_get_entry; lia).
    assert (∀ eid v, (eid, v) ∈ s → is_Some (store !! eid)) as Hst.
    { intros eid v Hv. apply (wf_stored _ _ Hwf).
      apply list_elem_of_fmap. by exists (eid, v). }
    destruct (add_nodes_total q store s [] Hst) as [[ns Hns]| ->]; [|done].
    destruct (add_nodes_returned q store s [] ns Hns _ _ Hin) as [c Hc].
    by rewrite py_index_colors_None in Hc. }
  split; [|split; [exact Hfail|split]].
  - intros g Hdump. exists s, es. split; [exact Hrun|].
    unfold dump_auth_chains, auth_chain_traversal in Hdump.
    rewrite Hrun in Hdump.
    destruct (add_nodes q store s []) as [ns| |] eqn:Hns; [|done..].
    intros eid v Hin.
    destruct (add_nodes_returned q store s [] ns Hns _ _ Hin) as [c Hc].
    eauto using py_index_colors_Some.
  - intros Hlen. destruct (lookup_lt_is_Some_2 starts 2) as [start Hstart];
      [lia|].
    apply (Hfail 2 start start); [lia|done|]. unfold in_auth_chain. reflexivity.
  - intros Hlen. unfold dump_auth_chains, auth_chain_traversal. rewrite Hrun.
    assert (∀ eid v, (eid, v) ∈ s →
              is_Some (store !! eid) ∧ is_Some (py_index colors v)) as Hok;
      [|destruct (add_nodes_ok q store s [] Hok) as [ns ->]; eauto].
    intros eid v Hin. split.
    + apply (wf_stored _ _ Hwf). apply list_elem_of_fmap. by exists (eid, v).
    + apply py_index_colors_small.
      rewrite <- (seen_entry_get store s eid v Hwf Hin).
      split; [apply (wf_nonneg _ _ Hwf)|].
      destruct (decide (4 ≤ seen_get s eid)%Z) as [Hbig|]; [|lia].
      apply ge_4_high_bit in Hbig as (j & Hj & Hbit).
      apply (out_bits _ _ _ _ Hinv) in Hbit as (start & Hstart & _).
      apply lookup_lt_Some in Hstart. lia.
Qed.

Lemma colour_lookup_bound_witness :
  let starts := ["$topic"; "$member"; "$power"] in
  (∀ g, dump_auth_chains id 14 demo_store starts = Returned g →
     ∃ s es, auth_chain_traversal 14 demo_store starts = Returned (s, es)
             ∧ ∀ eid bitmask, (eid, bitmask) ∈ s → (bitmask ≤ 3)%Z)
  ∧ (∀ i start e, 2 ≤ i → starts !! i = Some start →
       in_auth_chain demo_store start e →
       dump_auth_chains id 14 demo_store starts = Raised IndexError)
  ∧ (3 ≤ length starts →
       dump_auth_chains id 14 demo_store starts = Raised IndexError)
  ∧ (length starts ≤ 2 →
       ∃ g, dump_auth_chains id 14 demo_store starts = Returned g).
Proof.
  apply (colour_lookup_bound id demo_store).
  - exact demo_store_acyclic.
  - apply demo_store_fetchable. repeat constructor.
  - vm_compute. lia.
Defined.

(** * The un-partial-stated stream *)

Import PartialState.

(** C7. Every row of the un-partial-stated stream carries exactly one field,
    the room id: the row class declares [room_id] and nothing else, its
    constructor takes exactly one argument and stores it under that name; and
    the stream is named [un_partial_stated_room]. *)
Theorem stream_row_and_name :
  NAME = "un_partial_stated_room"
  ∧ cls_fields ROW_TYPE = ["room_id"]
  ∧ (∀ args, attrs_new ROW_TYPE args =
             match args with
             | [room_id] => inr (new_row room_id)
             | _ => inl TypeError
             end)
  ∧ (∀ room_id, dom (inst_values (new_row room_id)) = {[ "room_id" ]}
                ∧ attrs_getattr (new_row room_id) "room_id" = inr room_id)
  ∧ (∀ (U : Type) (hs : HomeServer U),
       stream_name (UnPartialStatedRoomStream hs) = "un_partial_stated_room"
       ∧ stream_row_type (UnPartialStatedRoomStream hs) = ROW_TYPE).
Proof.
  split; [done|]. split; [done|]. split; [|split].
  - intros [|room_id [|? ?]]; [done| |done].
    unfold attrs_new, new_row. simpl. by rewrite insert_empty.
  - intros room_id. split.
    + unfold new_row. simpl. by rewrite dom_singleton_L.
    + unfold attrs_getattr, new_row. simpl. by rewrite lookup_singleton_eq.
  - done.
Qed.

Lemma foldr_min_le (p : Z) (ps : list Z) (x : Z) :
  x ∈ p :: ps → (foldr Z.min p ps ≤ x)%Z.
Proof.
  induction ps as [|y ps IH]; simpl.
  - intros ->%list_elem_of_singleton. lia.
  - intros [Heq|[Heq|Hin]%elem_of_cons]%elem_of_cons.
    + assert (foldr Z.min p ps ≤ x)%Z by (apply IH; rewrite Heq; by left).
      lia.
    + lia.
    + assert (foldr Z.min p ps ≤ x)%Z by (apply IH; by right). lia.
Qed.

Lemma foldr_min_in (p : Z) (ps : list Z) : foldr Z.min p ps ∈ p :: ps.
Proof.
  induction ps as [|y ps IH]; simpl; [by left|].
  destruct (Z.min_spec y (foldr Z.min p ps)) as [[_ ->]|[_ ->]].
  - right. by left.
  - apply elem_of_cons in IH as [->|IH]; [by left|]. right. by right.
Qed.

Lemma merged_position_le (positions : gmap string Z) (w : string) (p : Z) :
  positions !! w = Some p → (merged_position positions ≤ p)%Z.
Proof.
  intros Hw. unfold merged_position.
  assert (p ∈ (map_to_list positions).*2) as Hin.
  { apply list_elem_of_fmap. exists (w, p). split; [done|].
    by apply elem_of_map_to_list. }
  destruct ((map_to_list positions).*2) as [|p0 ps];
    [by apply elem_of_nil in Hin|].
  by apply foldr_min_le.
Qed.

Lemma merged_position_attained (positions : gmap string Z) :
  positions ≠ ∅ → ∃ w, positions !! w = Some (merged_position positions).
Proof.
  intros Hne. unfold merged_position.
  destruct ((map_to_list positions).*2) as [|p0 ps] eqn:Hvals.
  - apply fmap_nil_inv in Hvals. by apply map_to_list_empty_iff in Hvals.
  - pose proof (foldr_min_in p0 ps) as Hin. rewrite <- Hvals in Hin.
    apply list_elem_of_fmap in Hin as ([w p] & Hp & Hin).
    apply elem_of_map_to_list in Hin. simpl in Hp. subst p. eauto.
Qed.

(** C8. The position a stream exposes is a non-negative integer.  With
    several writers, each at its own non-negative position, it is their
    merge: the minimum over the writers that have acknowledged, so it is at
    most the position of every one of them, it is the position of one of
    them, and it is the same whichever instance is asked about. *)
Theorem token_merge_rule {U : Type} (positions : gmap string Z) (updates : U)
    (name instance_name : string) :
  positions ≠ ∅ →
  map_Forall (λ _ p, (0 ≤ p)%Z) positions →
  let hs := {| get_instance_name := name;
               main := store_of_positions positions updates |} in
  let stream := UnPartialStatedRoomStream hs in
  (0 ≤ current_token stream instance_name)%Z
  ∧ (∀ w p, positions !! w = Some p →
            (current_token stream instance_name ≤ p)%Z)
  ∧ (∃ w, positions !! w = Some (current_token stream instance_name))
  ∧ current_token stream instance_name = current_token stream name.
Proof.
  intros Hne Hpos hs stream. simpl.
  unfold current_token_without_instance. simpl.
  destruct (merged_position_attained positions Hne) as [w Hw].
  split; [exact (Hpos w _ Hw)|]. split; [|split; [eauto|done]].
  intros w' p. apply merged_position_le.
Qed.

Lemma token_merge_rule_witness :
  let hs := {| get_instance_name := "master";
               main := store_of_positions demo_positions tt |} in
  let stream := UnPartialStatedRoomStream hs in
  (0 ≤ current_token stream "worker1")%Z
  ∧ (∀ w p, demo_positions !! w = Some p →
            (current_token stream "worker1" ≤ p)%Z)
  ∧ (∃ w, demo_positions !! w = Some (current_token stream "worker1"))
  ∧ current_token stream "worker1" = current_token stream "master".
Proof.
  apply (token_merge_rule demo_positions tt "master" "worker1").
  - intros Hempty.
    assert (demo_positions !! "master" = Some 5%Z) as Hm by (by vm_compute).
    rewrite Hempty in Hm. by rewrite lookup_empty in Hm.
  - apply (bool_decide_unpack _). by vm_compute.
Defined.

(** C10. A row of the stream cannot be changed once it is made: its class is
    frozen and slotted, so assigning to [room_id] or to any other attribute,
    and deleting one, raises [FrozenInstanceError]; and were the class not
    frozen, its slots alone would still refuse every attribute but
    [room_id]. *)
Theorem row_immutable :
  cls_frozen UnPartialStatedRoomStreamRow = true
  ∧ cls_slots UnPartialStatedRoomStreamRow = true
  ∧ (∀ room_id name value,
       attrs_setattr (new_row room_id) name value = inl FrozenInstanceError
       ∧ attrs_delattr (new_row room_id) name = inl FrozenInstanceError)
  ∧ (∀ room_id name value,
       attrs_setattr
         {| inst_class := thawed UnPartialStatedRoomStreamRow;
            inst_values := inst_values (new_row room_id) |} name value
       = if decide (name = "room_id")
         then inr {| inst_class := thawed UnPartialStatedRoomStreamRow;
                     inst_values := {[ "room_id" := value ]} |}
         else inl AttributeError).
Proof.
  split; [done|]. split; [done|]. split; [done|].
  intros room_id name value. unfold attrs_setattr. simpl.
  case_decide as Hname.
  - subst name. rewrite bool_decide_eq_false_2.
    + simpl. by rewrite insert_singleton_eq.
    + intros Hnot. apply Hnot. by left.
  - rewrite bool_decide_eq_true_2; [done|].
    by intros ->%list_elem_of_singleton.
Qed.

(** * More of the traversal *)

(** ** What a run never undoes *)

Lemma dict_set_keys (d : pydict) (k : string) (v : Z) :
  (dict_set d k v).*1 = if decide (k ∈ d.*1) then d.*1 else d.*1 ++ [k].
Proof.
  induction d as [|[k0 v0] d IH].
  - done.
  - change (((k0, v0) :: d).*1) with (k0 :: d.*1). simpl.
    destruct (decide (k0 = k)) as [->|Hne].
    + change (((k, v) :: d).*1) with (k :: d.*1).
      rewrite decide_True; [done|]. by left.
    + change (((k0, v0) :: dict_set d k v).*1)
        with (k0 :: (dict_set d k v).*1).
      rewrite IH. destruct (decide (k ∈ d.*1)) as [Hin|Hnin].
      * rewrite decide_True; [done|]. by right.
      * rewrite decide_False; [done|].
        intros [->|Hin]%elem_of_cons; done.
Qed.

Lemma dict_set_elem (d : pydict) (k : string) (x : Z) (e : string) (v : Z) :
  (e, v) ∈ dict_set d k x → (e = k ∧ v = x) ∨ (e, v) ∈ d.
Proof.
  induction d as [|[k0 v0] d IH]; simpl.
  - intros Hin%list_elem_of_singleton. simplify_eq. by left.
  - case_decide; subst.
    + intros [Heq|Hin]%elem_of_cons; [simplify_eq; by left|].
      right. by right.
    + intros [Heq|Hin]%elem_of_cons; [simplify_eq; right; by left|].
      destruct (IH Hin) as [?|?]; [by left|right; by right].
Qed.

Lemma loop_body_keys (store : DataStore) (bitmask : Z) (st st' : dfs_state) :
  loop_body store bitmask st = inr st' →
  (seen st).*1 `prefix_of` (seen st').*1.
Proof.
  unfold loop_body.
  destruct (stack st) as [|[eid pindex] rest]; [by intros [= <-]|].
  destruct (get_event store eid) as [event|]; [|done].
  case_decide.
  - intros [= <-]. simpl. rewrite dict_set_keys. case_decide; [done|].
    by apply prefix_app_r.
  - destruct (auth_event_ids event !! pindex); [|done].
    case_decide; by intros [= <-].
Qed.

Lemma dfs_visit_keeps (store : DataStore) (i : nat) (st st' : dfs_state) :
  dfs_visit store i st st' →
  (∀ e j, marked j (seen st) e = true → marked j (seen st') e = true)
  ∧ (∀ e j, j ≠ i → marked j (seen st') e = marked j (seen st) e)
  ∧ edges st ⊆ edges st'.
Proof.
  intros [eid pindex rest event s s' es Hev Hlen Hm
         |eid pindex rest event pid s es Hev Hpid Hbit
         |eid pindex rest event pid s es Hev Hpid Hbit]; simpl.
  - split; [eauto using marks_mono|]. split; [eauto using marks_other|done].
  - split; [done|]. split; [done|]. set_solver.
  - split; [done|]. split; [done|]. set_solver.
Qed.

Lemma while_stack_keeps (store : DataStore) (i : nat) (fuel : nat)
    (st st' : dfs_state) :
  while_stack fuel store (bitmask_of i) st = Returned st' →
  (∀ e j, marked j (seen st) e = true → marked j (seen st') e = true)
  ∧ (∀ e j, j ≠ i → marked j (seen st') e = marked j (seen st) e)
  ∧ edges st ⊆ edges st'
  ∧ (seen st).*1 `prefix_of` (seen st').*1.
Proof.
  revert st. induction fuel as [|fuel IH]; intros st; simpl.
  - destruct (stack st); [|done]. by intros [= <-].
  - destruct (stack st) eqn:Hstk; [by intros [= <-]|].
    destruct (loop_body store (bitmask_of i) st) as [|st1] eqn:Hbody; [done|].
    intros Hrun. destruct (IH st1 Hrun) as (Hmono & Hother & Hedges & Hkeys).
    assert (dfs_visit store i st st1) as Hv.
    { apply loop_body_visit; [by rewrite Hstk|done]. }
    destruct (dfs_visit_keeps store i st st1 Hv) as (Hmono1 & Hother1 & Hedges1).
    pose proof (loop_body_keys store _ st st1 Hbody) as Hkeys1.
    split; [auto|]. split; [|split].
    + intros e j Hj. rewrite Hother by done. auto.
    + set_solver.
    + by etrans.
Qed.

(** X1. Rounds [i .. i+n-1] of the traversal, from any [seen] and [edges],
    never clear a bit, touch no bit outside [i .. i+n-1], never drop an edge,
    and neither remove nor reorder an entry of [seen]: new entries are only
    appended. *)
Theorem rounds_only_add (store : DataStore) (fuel : nat) (i : nat)
    (starts : list string) (s s' : pydict) (es es' : gset (string * string)) :
  for_starts fuel store i starts s es = Returned (s', es') →
  (∀ e j, marked j s e = true → marked j s' e = true)
  ∧ (∀ e j, j < i ∨ i + length starts ≤ j → marked j s' e = marked j s e)
  ∧ es ⊆ es'
  ∧ s.*1 `prefix_of` s'.*1.
Proof.
  revert i s es. induction starts as [|start starts IH]; intros i s es; simpl.
  - intros [= <- <-]. done.
  - destruct (while_stack _ _ _ _) as [st| |] eqn:Hrun; [|done..].
    intros Hrest.
    destruct (while_stack_keeps store i fuel _ st Hrun)
      as (Hmono1 & Hother1 & Hedges1 & Hkeys1). simpl in *.
    destruct (IH _ _ _ Hrest) as (Hmono & Hother & Hedges & Hkeys).
    split; [auto|]. split; [|split].
    + intros e j Hj. rewrite Hother by lia. apply Hother1. lia.
    + set_solver.
    + by etrans.
Qed.

Lemma rounds_only_add_witness :
  ∃ s' es',
    for_starts 14 demo_store 1 ["$member"] [("$create", 1%Z)] ∅
      = Returned (s', es')
    ∧ (∀ e j, marked j [("$create", 1%Z)] e = true → marked j s' e = true)
    ∧ (∀ e j, j < 1 ∨ 1 + length ["$member"] ≤ j →
              marked j s' e = marked j [("$create", 1%Z)] e)
    ∧ ∅ ⊆ es'
    ∧ [("$create", 1%Z)].*1 `prefix_of` s'.*1.
Proof.
  destruct (for_starts_total demo_store 14 ["$member"] 1 [("$create", 1%Z)] ∅)
    as (s' & es' & Hrun).
  - exact demo_store_acyclic.
  - apply demo_store_fetchable. repeat constructor.
  - vm_compute. lia.
  - exists s', es'. split; [exact Hrun|].
    exact (rounds_only_add demo_store 14 1 ["$member"] _ s' _ es' Hrun).
Defined.

(** ** Cycles *)

Lemma dfs_inv_closed_reach (store : DataStore) (i : nat) (start : string)
    (s0 : pydict) (es0 : gset (string * string)) (st : dfs_state)
    (e x : string) :
  dfs_inv store i start s0 es0 st →
  marked i (seen st) e = true → rtc (auth_edge store) e x →
  marked i (seen st) x = true.
Proof.
  intros Hinv He Hreach. induction Hreach as [|a b c (ev & Ha & Hb) _ IH];
    [done|].
  apply IH. destruct (inv_closed _ _ _ _ _ _ Hinv _ He) as (ev' & Ha' & Hps).
  simplify_eq. by apply Hps.
Qed.

Lemma dfs_visit_cycle_free (store : DataStore) (i : nat) (start : string)
    (s0 : pydict) (es0 : gset (string * string)) (st st' : dfs_state) :
  dfs_inv store i start s0 es0 st →
  (∀ e, marked i (seen st) e = true → ¬ tc (auth_edge store) e e) →
  dfs_visit store i st st' →
  ∀ e, marked i (seen st') e = true → ¬ tc (auth_edge store) e e.
Proof.
  intros Hinv Hfree Hv.
  destruct Hv as [eid pindex rest event s s' es Hev Hlen Hm
                 |eid pindex rest event pid s es Hev Hpid Hbit
                 |eid pindex rest event pid s es Hev Hpid Hbit];
    simpl in *; [|done..].
  unfold get_event in Hev.
  intros e [->|He]%(marks_inv _ _ _ _ _ Hm); [|auto].
  destruct (marked i s eid) eqn:Hold; [auto|]. intros Hcyc.
  assert (∀ p, auth_edge store eid p → marked i s p = true) as Hauth.
  { intros p (ev & Hev' & Hp). simplify_eq.
    apply list_elem_of_lookup_1 in Hp as [j Hj].
    eapply (inv_slots _ _ _ _ _ _ Hinv eid pindex event j p);
      [by left|done| |done].
    apply lookup_lt_Some in Hj. lia. }
  assert (marked i s eid = true) as Hnew; [|congruence].
  inversion Hcyc as [x y Hedge|x y z Hedge Hrest]; subst.
  - by apply Hauth.
  - eapply (dfs_inv_closed_reach _ _ _ _ _ _ y eid Hinv); [by apply Hauth|].
    by apply tc_rtc.
Qed.

Lemma while_stack_cycle_free (store : DataStore) (i : nat) (start : string)
    (s0 : pydict) (es0 : gset (string * string)) (fuel : nat)
    (st st' : dfs_state) :
  dfs_inv store i start s0 es0 st →
  (∀ e, marked i (seen st) e = true → ¬ tc (auth_edge store) e e) →
  while_stack fuel store (bitmask_of i) st = Returned st' →
  ∀ e, marked i (seen st') e = true → ¬ tc (auth_edge store) e e.
Proof.
  revert st. induction fuel as [|fuel IH]; intros st Hinv Hfree; simpl.
  - destruct (stack st); [|done]. by intros [= <-].
  - destruct (stack st) eqn:Hstk; [by intros [= <-]|].
    destruct (loop_body store (bitmask_of i) st) as [|st1] eqn:Hbody; [done|].
    assert (dfs_visit store i st st1) as Hv.
    { apply loop_body_visit; [by rewrite Hstk|done]. }
    apply IH; eauto using dfs_inv_visit, dfs_visit_cycle_free.
Qed.

Lemma for_starts_cycle_free (store : DataStore) (fuel : nat)
    (starts done : list string) (s s' : pydict)
    (es es' : gset (string * string)) (start e : string) :
  outer_inv store done s es →
  for_starts fuel store (length done) starts s es = Returned (s', es') →
  start ∈ starts → in_auth_chain store start e →
  ¬ tc (auth_edge store) e e.
Proof.
  revert done s es. induction starts as [|start0 starts IH];
    intros done s es Hout; simpl; [by intros _ ?%elem_of_nil|].
  destruct (while_stack _ _ _ _) as [st| |] eqn:Hrun; [|done..].
  intros Hrest [->|Hin]%elem_of_cons Hch.
  - assert (∀ x, marked (length done) s x = false) as Hfresh.
    { intros x. destruct (marked (length done) s x) eqn:Hm; [|done].
      apply (out_bits _ _ _ _ Hout) in Hm as (y & Hy & _).
      apply lookup_lt_Some in Hy. lia. }
    pose proof (dfs_inv_init store (length done) start0 s es Hfresh) as Hinit.
    destruct (while_stack_inv _ _ _ _ _ _ _ _ Hinit Hrun) as [Hinv Hstk].
    eapply (while_stack_cycle_free _ _ _ _ _ _ _ st Hinit); [|exact Hrun|].
    + simpl. intros x Hx. by rewrite Hfresh in Hx.
    + by apply (dfs_inv_finished _ _ _ _ _ _ e Hinv Hstk).
  - eapply (IH (done ++ [start0])); [eauto using outer_inv_step| |done..].
    rewrite length_app, Nat.add_1_r. exact Hrest.
Qed.

Lemma loop_body_stored (store : DataStore) (bitmask : Z) (st : dfs_state) :
  auth_closed store →
  (∀ e, e ∈ (stack st).*1 → is_Some (store !! e)) →
  stack st ≠ [] →
  ∃ st', loop_body store bitmask st = inr st'
         ∧ ∀ e, e ∈ (stack st').*1 → is_Some (store !! e).
Proof.
  intros Hcl Hst Hne.
  destruct (stack st) as [|[eid pindex] rest] eqn:Hstk; [done|].
  destruct (loop_body_fetchable store bitmask st eid pindex rest Hstk)
    as [st' Hbody]; [apply Hst; by left|].
  exists st'. split; [done|]. revert Hbody. unfold loop_body. rewrite Hstk.
  destruct (get_event store eid) as [event|] eqn:Hev; [|done].
  case_decide.
  - intros [= <-]. simpl. intros e He. apply Hst. by right.
  - destruct (auth_event_ids event !! pindex) as [pid|] eqn:Hpid; [|done].
    case_decide; intros [= <-]; simpl; [done|].
    intros e [->|He]%elem_of_cons; [|by apply Hst].
    eapply auth_closed_edge; [done|]. eauto using auth_edge_lookup.
Qed.

Lemma while_stack_no_raise (store : DataStore) (bitmask : Z) (fuel : nat)
    (st : dfs_state) (exc : exn) :
  auth_closed store →
  (∀ e, e ∈ (stack st).*1 → is_Some (store !! e)) →
  while_stack fuel store bitmask st ≠ Raised exc.
Proof.
  intros Hcl. revert st. induction fuel as [|fuel IH]; intros st Hst; simpl.
  - by destruct (stack st).
  - destruct (stack st) eqn:Hstk; [done|]. rewrite <- Hstk in Hst.
    destruct (loop_body_stored store bitmask st Hcl Hst) as (st' & -> & Hst');
      [by rewrite Hstk|].
    by apply IH.
Qed.

Lemma for_starts_no_raise (store : DataStore) (fuel : nat)
    (starts : list string) (i : nat) (s : pydict)
    (es : gset (string * string)) (exc : exn) :
  all_fetchable store starts →
  for_starts fuel store i starts s es ≠ Raised exc.
Proof.
  intros [Hstarts Hcl]. revert i s es.
  induction starts as [|start starts IH]; intros i s es; simpl; [done|].
  apply Forall_cons in Hstarts as [Hs Hstarts].
  destruct (while_stack _ _ _ _) as [st|exc'|] eqn:Hrun; [by apply IH| |done].
  exfalso. revert Hrun. apply while_stack_no_raise; [done|].
  simpl. by intros e ->%list_elem_of_singleton.
Qed.

(** X2. When some event in the auth chain of a start lies on a cycle of auth
    events, no run of the traversal returns; and when every referenced event
    can be fetched nothing is raised either, so the loop goes on whatever the
    number of passes allowed. *)
Theorem cycle_never_returns (store : DataStore) (starts : list string)
    (start e : string) :
  start ∈ starts →
  in_auth_chain store start e →
  tc (auth_edge store) e e →
  (∀ fuel s es, auth_chain_traversal fuel store starts ≠ Returned (s, es))
  ∧ (all_fetchable store starts →
     ∀ fuel, auth_chain_traversal fuel store starts = OutOfFuel).
Proof.
  intros Hstart Hch Hcyc.
  assert (∀ fuel s es,
            auth_chain_traversal fuel store starts ≠ Returned (s, es)) as Hnot.
  { intros fuel s es Hrun.
    eapply (for_starts_cycle_free store fuel starts [] [] s ∅ es start e);
      eauto using outer_inv_init. }
  split; [exact Hnot|]. intros Hfetch fuel.
  destruct (auth_chain_traversal fuel store starts) as [[s es]|exc|] eqn:Hrun;
    [by apply Hnot in Hrun| |done].
  by apply for_starts_no_raise in Hrun.
Qed.

Lemma cycle_never_returns_witness :
  (∀ fuel s es, auth_chain_traversal fuel cyclic_store ["$a"]
                ≠ Returned (s, es))
  ∧ (all_fetchable cyclic_store ["$a"] →
     ∀ fuel, auth_chain_traversal fuel cyclic_store ["$a"] = OutOfFuel).
Proof.
  apply (cycle_never_returns cyclic_store ["$a"] "$a" "$a").
  - by left.
  - unfold in_auth_chain. reflexivity.
  - eapply tc_l; [|apply tc_once].
    + eexists. split; [by vm_compute|]. simpl. by left.
    + eexists. split; [by vm_compute|]. simpl. by left.
Defined.

(** ** The entries of [seen] *)

Lemma entries_positive_get (s : pydict) (e : string) :
  entries_positive s → (0 ≤ seen_get s e)%Z.
Proof.
  intros Hpos. unfold seen_get.
  destruct (dict_lookup s e) as [v|] eqn:Hv; simpl; [|done].
  apply dict_lookup_elem_of, Hpos in Hv. lia.
Qed.

Lemma lor_bitmask_pos (x : Z) (i : nat) :
  (0 ≤ x)%Z → (0 < Z.lor x (bitmask_of i))%Z.
Proof.
  intros Hx.
  assert (0 ≤ Z.lor x (bitmask_of i))%Z.
  { apply Z.lor_nonneg. split; [done|apply bitmask_nonneg]. }
  assert (Z.lor x (bitmask_of i) ≠ 0)%Z; [|lia].
  intros Hz.
  assert (Z.testbit (Z.lor x (bitmask_of i)) (Z.of_nat i) = true) as Hb.
  { rewrite Z.lor_spec, testbit_bitmask, bool_decide_eq_true_2 by done.
    apply orb_true_r. }
  rewrite Hz, Z.bits_0 in Hb. done.
Qed.

Lemma loop_body_entries_positive (store : DataStore) (i : nat)
    (st st' : dfs_state) :
  entries_positive (seen st) →
  loop_body store (bitmask_of i) st = inr st' →
  entries_positive (seen st').
Proof.
  intros Hpos. unfold loop_body.
  destruct (stack st) as [|[eid pindex] rest]; [by intros [= <-]|].
  destruct (get_event store eid) as [event|]; [|done].
  case_decide.
  - intros [= <-]. simpl. intros e v [[-> ->]|Hin]%dict_set_elem; [|eauto].
    apply lor_bitmask_pos. by apply entries_positive_get.
  - destruct (auth_event_ids event !! pindex); [|done].
    case_decide; by intros [= <-].
Qed.

Lemma while_stack_entries_positive (store : DataStore) (i : nat) (fuel : nat)
    (st st' : dfs_state) :
  entries_positive (seen st) →
  while_stack fuel store (bitmask_of i) st = Returned st' →
  entries_positive (seen st').
Proof.
  revert st. induction fuel as [|fuel IH]; intros st Hpos; simpl.
  - destruct (stack st); [|done]. by intros [= <-].
  - destruct (stack st); [by intros [= <-]|].
    destruct (loop_body store (bitmask_of i) st) as [|st1] eqn:Hbody; [done|].
    apply IH. eauto using loop_body_entries_positive.
Qed.

Lemma for_starts_entries_positive (store : DataStore) (fuel : nat)
    (starts : list string) (i : nat) (s s' : pydict)
    (es es' : gset (string * string)) :
  entries_positive s →
  for_starts fuel store i starts s es = Returned (s', es') →
  entries_positive s'.
Proof.
  revert i s es. induction starts as [|start starts IH]; intros i s es Hpos;
    simpl.
  - by intros [= <- <-].
  - destruct (while_stack _ _ _ _) as [st| |] eqn:Hrun; [|done..].
    apply IH. eapply while_stack_entries_positive; [|exact Hrun]. done.
Qed.

Lemma pos_has_bit (v : Z) :
  (0 < v)%Z → ∃ j, Z.testbit v (Z.of_nat j) = true ∧ (2 ^ Z.of_nat j ≤ v)%Z.
Proof.
  intros Hv. exists (Z.to_nat (Z.log2 v)).
  pose proof (Z.log2_nonneg v). rewrite Z2Nat.id by done.
  split; [by apply Z.bit_log2|]. by apply Z.log2_spec.
Qed.

Lemma below_pow2 (v : Z) (n : nat) :
  (0 ≤ v)%Z →
  (∀ j, Z.testbit v (Z.of_nat j) = true → j < n) →
  (v < 2 ^ Z.of_nat n)%Z.
Proof.
  intros Hv Hbits. destruct (decide (v = 0%Z)) as [->|Hnz].
  - apply Z.pow_pos_nonneg; lia.
  - pose proof (Z.log2_nonneg v).
    assert (Z.to_nat (Z.log2 v) < n) as Hlog.
    { apply Hbits. rewrite Z2Nat.id by done. apply Z.bit_log2. lia. }
    apply Z.log2_lt_pow2; lia.
Qed.

(** X3. The [seen] map a traversal returns has one entry for each event that
    is in the auth chain of some start and no other entry, and with [n]
    starts every bitmap in it is at least 1 and below [2^n]. *)
Theorem seen_entries (store : DataStore) (fuel : nat) (starts : list string)
    (s : pydict) (es : gset (string * string)) :
  auth_chain_traversal fuel store starts = Returned (s, es) →
  NoDup s.*1
  ∧ (∀ e, e ∈ s.*1 ↔
          ∃ start, start ∈ starts ∧ in_auth_chain store start e)
  ∧ (∀ e v, (e, v) ∈ s → (1 ≤ v < 2 ^ Z.of_nat (length starts))%Z).
Proof.
  intros Hrun. pose proof (traversal_returned _ _ _ _ _ Hrun) as Hinv.
  pose proof (out_wf _ _ _ _ Hinv) as Hwf.
  assert (entries_positive s) as Hpos.
  { eapply for_starts_entries_positive; [|exact Hrun].
    by intros e v ?%elem_of_nil. }
  split; [apply (wf_nodup _ _ Hwf)|]. split.
  - intros e. split.
    + intros ([e' v] & -> & Hin)%list_elem_of_fmap. simpl.
      destruct (pos_has_bit v (Hpos _ _ Hin)) as (j & Hbit & _).
      rewrite <- (seen_entry_get store s e' v Hwf Hin) in Hbit.
      apply (out_bits _ _ _ _ Hinv) in Hbit as (start & Hstart & Hch).
      exists start. split; [by eapply list_elem_of_lookup_2|done].
    + intros (start & [j Hj]%list_elem_of_lookup_1 & Hch).
      assert (marked j s e = true) as Hm.
      { apply (out_bits _ _ _ _ Hinv). eauto. }
      apply list_elem_of_fmap. exists (e, seen_get s e). split; [done|].
      apply seen_get_entry. intros Hz. unfold marked in Hm.
      by rewrite Hz, Z.bits_0 in Hm.
  - intros e v Hin. split; [specialize (Hpos _ _ Hin); lia|].
    apply below_pow2; [specialize (Hpos _ _ Hin); lia|].
    intros j Hbit.
    rewrite <- (seen_entry_get store s e v Hwf Hin) in Hbit.
    apply (out_bits _ _ _ _ Hinv) in Hbit as (start & Hstart & _).
    by apply lookup_lt_Some in Hstart.
Qed.

Lemma seen_entries_witness :
  ∃ s es,
    auth_chain_traversal 14 demo_store ["$topic"; "$member"] = Returned (s, es)
    ∧ NoDup s.*1
    ∧ (∀ e, e ∈ s.*1 ↔
            ∃ start, start ∈ ["$topic"; "$member"]
                     ∧ in_auth_chain demo_store start e)
    ∧ (∀ e v, (e, v) ∈ s →
              (1 ≤ v < 2 ^ Z.of_nat (length ["$topic"; "$member"]))%Z).
Proof.
  destruct (for_starts_total demo_store 14 ["$topic"; "$member"] 0 [] ∅)
    as (s & es & Hrun).
  - exact demo_store_acyclic.
  - apply demo_store_fetchable. repeat constructor.
  - vm_compute. lia.
  - exists s, es. split; [exact Hrun|].
    exact (seen_entries demo_store 14 _ s es Hrun).
Defined.

(** ** The graph *)

Lemma add_nodes_entries (q : string → string) (store : DataStore)
    (items : pydict) (acc ns : list Node) :
  add_nodes q store items acc = Returned ns →
  ∃ new, ns = acc ++ new ∧ Forall2 (entry_node q store) items new.
Proof.
  revert acc. induction items as [|[eid v] items IH]; intros acc; simpl.
  - intros [= <-]. exists []. by rewrite app_nil_r.
  - unfold get_event. destruct (store !! eid) as [ev|] eqn:Hev; [|done].
    destruct (py_index colors v) as [c|] eqn:Hc; [|done].
    intros Hrun. destruct (IH _ Hrun) as (new & -> & Hall).
    exists (node q ev c :: new). split; [by rewrite <- app_assoc|].
    constructor; [|done]. by exists ev, c.
Qed.

Lemma py_index_colors_pos (v : Z) (c : string) :
  (0 < v)%Z → py_index colors v = Some c →
  c ∈ ["orangered"; "lightskyblue"; "mediumorchid1"].
Proof.
  intros Hv. unfold py_index. rewrite decide_True by lia.
  destruct (Z.to_nat v) as [|n] eqn:Hn; [lia|]. simpl.
  by intros ?%list_elem_of_lookup_2.
Qed.

Lemma dump_returned (q : string → string) (fuel : nat) (store : DataStore)
    (starts : list string) (g : Dot) :
  dump_auth_chains q fuel store starts = Returned g →
  ∃ s es ns,
    auth_chain_traversal fuel store starts = Returned (s, es)
    ∧ add_nodes q store s [] = Returned ns
    ∧ g = {| dot_nodes := ns;
             dot_edges := (λ e, (q e.1, q e.2)) <$> elements es |}.
Proof.
  unfold dump_auth_chains.
  destruct (auth_chain_traversal fuel store starts) as [[s es]| |]; [|done..].
  destruct (add_nodes q store s []) as [ns| |] eqn:Hns; [|done..].
  intros [= <-]. by exists s, es, ns.
Qed.

(** X4. The graph [dump_auth_chains] returns has one node per entry of
    [seen], in the order of [seen], each made from the stored event with the
    colour its bitmap selects; no node is gray, the colour of bitmap 0; and
    its edges are the auth edges, ids quoted, that leave the events in the
    auth chain of some start. *)
Theorem graph_of_seen (q : string → string) (fuel : nat) (store : DataStore)
    (starts : list string) (g : Dot) :
  dump_auth_chains q fuel store starts = Returned g →
  ∃ s es,
    auth_chain_traversal fuel store starts = Returned (s, es)
    ∧ Forall2 (entry_node q store) s (dot_nodes g)
    ∧ (∀ n, n ∈ dot_nodes g →
            fillcolor n ∈ ["orangered"; "lightskyblue"; "mediumorchid1"])
    ∧ (∀ a b, (a, b) ∈ dot_edges g ↔
              ∃ e p, a = q e ∧ b = q p ∧ auth_edge store e p
                     ∧ ∃ start, start ∈ starts
                                ∧ in_auth_chain store start e).
Proof.
  intros (s & es & ns & Hrun & Hns & ->)%dump_returned.
  exists s, es. split; [exact Hrun|].
  apply add_nodes_entries in Hns as (new & -> & Hall). simpl.
  split; [done|]. split.
  - intros n [j Hj]%list_elem_of_lookup_1.
    destruct (Forall2_lookup_r _ _ _ _ _ Hall Hj)
      as ([e v] & He & ev & c & Hev & Hc & ->). simpl in *.
    apply (py_index_colors_pos v); [|done].
    eapply (for_starts_entries_positive store fuel starts 0 [] s ∅ es);
      [by intros ? ? ?%elem_of_nil|exact Hrun|].
    by eapply list_elem_of_lookup_2.
  - intros a b. rewrite list_elem_of_fmap.
    pose proof (out_edges _ _ _ _ (traversal_returned _ _ _ _ _ Hrun)) as Hes.
    split.
    + intros ([e p] & [= -> ->] & Hin%elem_of_elements). simpl.
      apply Hes in Hin as [Hedge Hch]. by exists e, p.
    + intros (e & p & -> & -> & Hedge & Hch). exists (e, p).
      split; [done|]. apply elem_of_elements, Hes. done.
Qed.

Lemma graph_of_seen_witness :
  ∃ g s es,
    dump_auth_chains id 14 demo_store ["$topic"; "$member"] = Returned g
    ∧ auth_chain_traversal 14 demo_store ["$topic"; "$member"]
      = Returned (s, es)
    ∧ Forall2 (entry_node id demo_store) s (dot_nodes g)
    ∧ (∀ n, n ∈ dot_nodes g →
            fillcolor n ∈ ["orangered"; "lightskyblue"; "mediumorchid1"])
    ∧ (∀ a b, (a, b) ∈ dot_edges g ↔
              ∃ e p, a = id e ∧ b = id p ∧ auth_edge demo_store e p
                     ∧ ∃ start, start ∈ ["$topic"; "$member"]
                                ∧ in_auth_chain demo_store start e).
Proof.
  destruct (dump_auth_chains id 14 demo_store ["$topic"; "$member"])
    as [g| |] eqn:Hdump; [|by vm_compute in Hdump..].
  destruct (graph_of_seen id 14 demo_store _ g Hdump) as (s & es & Hrest).
  exists g, s, es. split; [reflexivity|exact Hrest].
Defined.

Lemma bits_eq_two (x : Z) (b0 b1 : bool) :
  (∀ j, Z.testbit x (Z.of_nat j) =
        match j with 0 => b0 | 1 => b1 | _ => false end) →
  x = (Z.b2z b0 + 2 * Z.b2z b1)%Z.
Proof.
  intros Hbits. apply Z.bits_inj'. intros n Hn.
  replace n with (Z.of_nat (Z.to_nat n)) by lia. rewrite Hbits.
  destruct (Z.to_nat n) as [|[|m]] eqn:Hm.
  - by destruct b0, b1.
  - by destruct b0, b1.
  - symmetry. apply Z.bits_above_log2; [destruct b0, b1; simpl; lia|].
    assert (Z.log2 (Z.b2z b0 + 2 * Z.b2z b1) ≤ 1)%Z; [|lia].
    destruct b0, b1; by vm_compute.
Qed.

Lemma two_starts_value (store : DataStore) (A B : string) (s : pydict)
    (es : gset (string * string)) (e : string) :
  outer_inv store [A; B] s es →
  seen_get s e = (Z.b2z (marked 0 s e) + 2 * Z.b2z (marked 1 s e))%Z.
Proof.
  intros Hinv. apply bits_eq_two. intros j.
  destruct j as [|[|j]]; [done..|].
  change (marked (S (S j)) s e = false).
  destruct (marked (S (S j)) s e) eqn:Hm; [|done].
  apply (out_bits _ _ _ _ Hinv) in Hm as (x & Hx & _). done.
Qed.

Lemma two_starts_nodes (q : string → string) (store : DataStore)
    (A B : string) (s : pydict) (es : gset (string * string)) :
  outer_inv store [A; B] s es →
  ∃ ns, add_nodes q store s [] = Returned ns.
Proof.
  intros Hinv. pose proof (out_wf _ _ _ _ Hinv) as Hwf.
  apply add_nodes_ok. intros eid v Hin. split.
  - apply (wf_stored _ _ Hwf). apply list_elem_of_fmap. by exists (eid, v).
  - apply py_index_colors_small.
    rewrite <- (seen_entry_get store s eid v Hwf Hin).
    rewrite (two_starts_value store A B s es eid Hinv).
    destruct (marked 0 s eid), (marked 1 s eid); simpl; lia.
Qed.

(** X5. With two starts [A] and [B] on an acyclic store with every event
    fetchable the graph is returned, and its colours tell the chains apart:
    an event in the auth chain of [A] alone has an orangered node, one in the
    chain of [B] alone a lightskyblue node, one in both a mediumorchid1 node;
    and every node is the node of a stored event in one of the two chains. *)
Theorem two_start_colours (q : string → string) (store : DataStore)
    (A B : string) (fuel : nat) :
  acyclic store →
  all_fetchable store [A; B] →
  work_bound store ≤ fuel →
  ∃ g,
    dump_auth_chains q fuel store [A; B] = Returned g
    ∧ (∀ e ev, store !! e = Some ev →
         in_auth_chain store A e → ¬ in_auth_chain store B e →
         node q ev "orangered" ∈ dot_nodes g)
    ∧ (∀ e ev, store !! e = Some ev →
         ¬ in_auth_chain store A e → in_auth_chain store B e →
         node q ev "lightskyblue" ∈ dot_nodes g)
    ∧ (∀ e ev, store !! e = Some ev →
         in_auth_chain store A e → in_auth_chain store B e →
         node q ev "mediumorchid1" ∈ dot_nodes g)
    ∧ (∀ n, n ∈ dot_nodes g →
         ∃ e ev, store !! e = Some ev
                 ∧ (in_auth_chain store A e ∨ in_auth_chain store B e)
                 ∧ n = node q ev (fillcolor n)).
Proof.
  intros Hac Hfetch Hfuel.
  destruct (for_starts_total store fuel [A; B] 0 [] ∅ Hac Hfetch Hfuel)
    as (s & es & Hrun).
  pose proof (traversal_returned _ _ _ _ _ Hrun) as Hinv.
  pose proof (out_wf _ _ _ _ Hinv) as Hwf.
  pose proof (out_bits _ _ _ _ Hinv) as Hbits.
  destruct (two_starts_nodes q store A B s es Hinv) as [ns Hns].
  exists {| dot_nodes := ns;
            dot_edges := (λ e, (q e.1, q e.2)) <$> elements es |}.
  split.
  { unfold dump_auth_chains, auth_chain_traversal. by rewrite Hrun, Hns. }
  apply add_nodes_entries in Hns as (new & -> & Hall). simpl.
  assert (∀ e, marked 0 s e = true ↔ in_auth_chain store A e) as HA.
  { intros e. rewrite Hbits. simpl. naive_solver. }
  assert (∀ e, marked 1 s e = true ↔ in_auth_chain store B e) as HB.
  { intros e. rewrite Hbits. simpl. naive_solver. }
  assert (∀ e ev, store !! e = Some ev → seen_get s e ≠ 0%Z →
            ∃ c, py_index colors (seen_get s e) = Some c
                 ∧ node q ev c ∈ new) as Hnode.
  { intros e ev Hev Hnz.
    apply seen_get_entry, list_elem_of_lookup_1 in Hnz as [j Hj].
    destruct (Forall2_lookup_l _ _ _ _ _ Hall Hj)
      as (n & Hn & ev' & c & Hev' & Hc & ->). simpl in *. simplify_eq.
    exists c. split; [done|]. by eapply list_elem_of_lookup_2. }
  split; [|split; [|split]].
  - intros e ev Hev HAe HBe. apply HA in HAe.
    assert (marked 1 s e = false) as HBf.
    { destruct (marked 1 s e) eqn:Hm; [|done]. by apply HB in Hm. }
    pose proof (two_starts_value store A B s es e Hinv) as Hval.
    rewrite HAe, HBf in Hval. simpl in Hval.
    destruct (Hnode e ev Hev) as (c & Hc & Hin); [lia|].
    rewrite Hval in Hc. vm_compute in Hc. by simplify_eq.
  - intros e ev Hev HAe HBe. apply HB in HBe.
    assert (marked 0 s e = false) as HAf.
    { destruct (marked 0 s e) eqn:Hm; [|done]. by apply HA in Hm. }
    pose proof (two_starts_value store A B s es e Hinv) as Hval.
    rewrite HAf, HBe in Hval. simpl in Hval.
    destruct (Hnode e ev Hev) as (c & Hc & Hin); [lia|].
    rewrite Hval in Hc. vm_compute in Hc. by simplify_eq.
  - intros e ev Hev HAe HBe. apply HA in HAe. apply HB in HBe.
    pose proof (two_starts_value store A B s es e Hinv) as Hval.
    rewrite HAe, HBe in Hval. simpl in Hval.
    destruct (Hnode e ev Hev) as (c & Hc & Hin); [lia|].
    rewrite Hval in Hc. vm_compute in Hc. by simplify_eq.
  - intros n [j Hj]%list_elem_of_lookup_1.
    destruct (Forall2_lookup_r _ _ _ _ _ Hall Hj)
      as ([e v] & He & ev & c & Hev & Hc & ->). simpl in *.
    exists e, ev. split; [done|]. split; [|done].
    apply list_elem_of_lookup_2 in He.
    assert (0 < v)%Z as Hv.
    { eapply (for_starts_entries_positive store fuel [A; B] 0 [] s ∅ es);
        [by intros ? ? ?%elem_of_nil|exact Hrun|exact He]. }
    rewrite <- (seen_entry_get store s e v Hwf He) in Hv.
    rewrite (two_starts_value store A B s es e Hinv) in Hv.
    destruct (marked 0 s e) eqn:H0; [left; by apply HA|].
    destruct (marked 1 s e) eqn:H1; [right; by apply HB|].
    simpl in Hv. lia.
Qed.

Lemma two_start_colours_witness :
  ∃ g,
    dump_auth_chains id 14 demo_store ["$topic"; "$member"] = Returned g
    ∧ (∀ e ev, demo_store !! e = Some ev →
         in_auth_chain demo_store "$topic" e →
         ¬ in_auth_chain demo_store "$member" e →
         node id ev "orangered" ∈ dot_nodes g)
    ∧ (∀ e ev, demo_store !! e = Some ev →
         ¬ in_auth_chain demo_store "$topic" e →
         in_auth_chain demo_store "$member" e →
         node id ev "lightskyblue" ∈ dot_nodes g)
    ∧ (∀ e ev, demo_store !! e = Some ev →
         in_auth_chain demo_store "$topic" e →
         in_auth_chain demo_store "$member" e →
         node id ev "mediumorchid1" ∈ dot_nodes g)
    ∧ (∀ n, n ∈ dot_nodes g →
         ∃ e ev, demo_store !! e = Some ev
                 ∧ (in_auth_chain demo_store "$topic" e
                    ∨ in_auth_chain demo_store "$member" e)
                 ∧ n = node id ev (fillcolor n)).
Proof.
  apply (two_start_colours id demo_store).
  - exact demo_store_acyclic.
  - apply demo_store_fetchable. repeat constructor.
  - vm_compute. lia.
Defined.

(** ** The order of the entries *)

Lemma marked_key (i : nat) (s : pydict) (p : string) :
  marked i s p = true → p ∈ s.*1.
Proof.
  intros Hm. apply list_elem_of_fmap. exists (p, seen_get s p).
  split; [done|]. apply seen_get_entry. intros Hz.
  unfold marked in Hm. by rewrite Hz, Z.bits_0 in Hm.
Qed.

Lemma before_in_app (l : list string) (x p e : string) :
  before_in l p e → before_in (l ++ [x]) p e.
Proof.
  intros (a & b & Ha & Hb & Hab). exists a, b.
  split; [by apply lookup_app_l_Some|]. split; [by apply lookup_app_l_Some|done].
Qed.

Lemma before_in_last (l : list string) (p e : string) :
  p ∈ l → before_in (l ++ [e]) p e.
Proof.
  intros [a Ha]%list_elem_of_lookup_1. exists a, (length l).
  split; [by apply lookup_app_l_Some|]. split.
  - by rewrite lookup_app_r, Nat.sub_diag by done.
  - by eapply lookup_lt_Some.
Qed.

Lemma loop_body_auth_first (store : DataStore) (i : nat) (start : string)
    (s0 : pydict) (es0 : gset (string * string)) (st st' : dfs_state) :
  dfs_inv store i start s0 es0 st →
  auth_first store (seen st) →
  loop_body store (bitmask_of i) st = inr st' →
  auth_first store (seen st').
Proof.
  intros Hinv Hfirst. destruct st as [s es stk]. unfold loop_body. simpl in *.
  destruct stk as [|[eid pindex] rest]; [by intros [= <-]|].
  unfold get_event. destruct (store !! eid) as [event|] eqn:Hev; [|done].
  case_decide as Hlen.
  - intros [= <-]. simpl. unfold auth_first. rewrite dict_set_keys.
    case_decide as Hkey; [exact Hfirst|].
    intros e ev p [He|He%list_elem_of_singleton]%elem_of_app Hev' Hp.
    + apply before_in_app. eauto.
    + subst e. simplify_eq. apply before_in_last.
      apply list_elem_of_lookup_1 in Hp as [j Hj].
      apply (marked_key i).
      assert (j < pindex) as Hjk by (apply lookup_lt_Some in Hj; lia).
      eapply (inv_slots _ _ _ _ _ _ Hinv eid pindex _ j p);
        [by left|eassumption|exact Hjk|eassumption].
  - destruct (auth_event_ids event !! pindex); [|done].
    case_decide; by intros [= <-].
Qed.

Lemma while_stack_auth_first (store : DataStore) (i : nat) (start : string)
    (s0 : pydict) (es0 : gset (string * string)) (fuel : nat)
    (st st' : dfs_state) :
  dfs_inv store i start s0 es0 st →
  auth_first store (seen st) →
  while_stack fuel store (bitmask_of i) st = Returned st' →
  auth_first store (seen st').
Proof.
  revert st. induction fuel as [|fuel IH]; intros st Hinv Hfirst; simpl.
  - destruct (stack st); [|done]. by intros [= <-].
  - destruct (stack st) eqn:Hstk; [by intros [= <-]|].
    destruct (loop_body store (bitmask_of i) st) as [|st1] eqn:Hbody; [done|].
    apply IH.
    + eapply dfs_inv_visit; [done|].
      apply loop_body_visit; [by rewrite Hstk|done].
    + eauto using loop_body_auth_first.
Qed.

Lemma for_starts_auth_first (store : DataStore) (fuel : nat)
    (starts done : list string) (s s' : pydict)
    (es es' : gset (string * string)) :
  outer_inv store done s es →
  auth_first store s →
  for_starts fuel store (length done) starts s es = Returned (s', es') →
  auth_first store s'.
Proof.
  revert done s es. induction starts as [|start starts IH];
    intros done s es Hout Hfirst; simpl; [by intros [= <- <-]|].
  destruct (while_stack _ _ _ _) as [st| |] eqn:Hrun; [|done..].
  intros Hrest.
  assert (∀ x, marked (length done) s x = false) as Hfresh.
  { intros x. destruct (marked (length done) s x) eqn:Hm; [|done].
    apply (out_bits _ _ _ _ Hout) in Hm as (y & Hy & _).
    apply lookup_lt_Some in Hy. lia. }
  pose proof (dfs_inv_init store (length done) start s es Hfresh) as Hinit.
  eapply (IH (done ++ [start]) (seen st) (edges st)).
  - eauto using outer_inv_step.
  - eapply while_stack_auth_first; [exact Hinit|done|exact Hrun].
  - rewrite length_app, Nat.add_1_r. exact Hrest.
Qed.

(** X6. The entries of the [seen] map a traversal returns, and with them
    the nodes of the graph, come in an order in which every event stands
    after each of its auth events. *)
Theorem seen_auth_events_first (store : DataStore) (fuel : nat)
    (starts : list string) (s : pydict) (es : gset (string * string)) :
  auth_chain_traversal fuel store starts = Returned (s, es) →
  ∀ e ev p, e ∈ s.*1 → store !! e = Some ev → p ∈ auth_event_ids ev →
    before_in s.*1 p e.
Proof.
  intros Hrun.
  apply (for_starts_auth_first store fuel starts [] [] s ∅ es).
  - apply outer_inv_init.
  - by intros e ev p ?%elem_of_nil.
  - exact Hrun.
Qed.

Lemma seen_auth_events_first_witness :
  ∃ s es,
    auth_chain_traversal 14 demo_store ["$topic"; "$member"] = Returned (s, es)
    ∧ ∀ e ev p, e ∈ s.*1 → demo_store !! e = Some ev →
        p ∈ auth_event_ids ev → before_in s.*1 p e.
Proof.
  destruct (for_starts_total demo_store 14 ["$topic"; "$member"] 0 [] ∅)
    as (s & es & Hrun).
  - exact demo_store_acyclic.
  - apply demo_store_fetchable. repeat constructor.
  - vm_compute. lia.
  - exists s, es. split; [exact Hrun|].
    exact (seen_auth_events_first demo_store 14 _ s es Hrun).
Defined.

(** ** The stack in the middle of a round *)

Lemma after_passes_stack_wf (store : DataStore) (universe : list string)
    (i : nat) (n : nat) (st st' : dfs_state) :
  acyclic store → universe_closed store universe →
  stack_wf store universe (stack st) →
  after_passes n store (bitmask_of i) st = inr st' →
  stack_wf store universe (stack st').
Proof.
  intros Hac Hcl. revert st. induction n as [|n IH]; intros st Hwf; simpl.
  - by intros [= <-].
  - destruct (stack st) eqn:Hstk; [by intros [= <-]; rewrite Hstk|].
    rewrite <- Hstk in Hwf.
    destruct (loop_body store (bitmask_of i) st) as [|st1] eqn:Hbody; [done|].
    apply IH. eapply stack_wf_visit; [done..|].
    apply loop_body_visit; [by rewrite Hstk|done].
Qed.

(** X7. On an acyclic store with every auth event stored, the stack of a
    round never holds an event twice, is at every moment a path of auth
    edges down from the start, and so is never deeper than the number of
    stored events. *)
Theorem stack_depth_bound (store : DataStore) (i n : nat) (start : string)
    (s : pydict) (es : gset (string * string)) (st : dfs_state) :
  acyclic store →
  auth_closed store →
  is_Some (store !! start) →
  after_passes n store (bitmask_of i)
    {| seen := s; edges := es; stack := [(start, 0)] |} = inr st →
  length (stack st) ≤ size store
  ∧ NoDup (stack st).*1
  ∧ linked store (stack st)
  ∧ (∀ e, e ∈ (stack st).*1 → is_Some (store !! e)).
Proof.
  intros Hac Hcl Hstart Hrun.
  pose proof (after_passes_stack_wf store (store_ids store) i n
                {| seen := s; edges := es; stack := [(start, 0)] |} st Hac
                (store_ids_closed store Hcl) (stack_wf_init store start Hstart)
                Hrun) as [Hl Hnd Hu].
  split; [|split; [done|split; [done|]]].
  - rewrite <- (length_fmap fst (stack st)), <- (length_map_to_list store).
    rewrite <- (length_fmap fst (map_to_list store)).
    apply submseteq_length, NoDup_submseteq; [done|].
    intros e He. by apply Hu.
  - intros e He. by apply elem_of_store_ids, Hu.
Qed.

Lemma stack_depth_bound_witness :
  ∃ st,
    after_passes 3 demo_store (bitmask_of 0)
      {| seen := []; edges := ∅; stack := [("$topic", 0)] |} = inr st
    ∧ length (stack st) ≤ size demo_store
    ∧ NoDup (stack st).*1
    ∧ linked demo_store (stack st)
    ∧ (∀ e, e ∈ (stack st).*1 → is_Some (demo_store !! e)).
Proof.
  destruct (after_passes 3 demo_store (bitmask_of 0)
              {| seen := []; edges := ∅; stack := [("$topic", 0)] |})
    as [exc|st] eqn:Hrun; [by vm_compute in Hrun|].
  exists st. split; [reflexivity|].
  apply (stack_depth_bound demo_store 0 3 "$topic" [] ∅ st).
  - exact demo_store_acyclic.
  - exact demo_store_closed.
  - by vm_compute; eauto.
  - exact Hrun.
Defined.

(** ** The edge set and the starts *)

(** X8. The edge set a traversal returns depends on the starts only as a
    set: a run over more starts returns at least the edges of a run over
    fewer, and two runs over the same starts in any order, with or without
    repetitions, return the same edges. *)
Theorem edges_depend_on_start_set (store : DataStore) (fuel fuel' : nat)
    (starts starts' : list string) (s s' : pydict)
    (es es' : gset (string * string)) :
  auth_chain_traversal fuel store starts = Returned (s, es) →
  auth_chain_traversal fuel' store starts' = Returned (s', es') →
  (starts ⊆ starts' → es ⊆ es')
  ∧ ((∀ x, x ∈ starts ↔ x ∈ starts') → es = es').
Proof.
  intros Hrun Hrun'.
  pose proof (out_edges _ _ _ _ (traversal_returned _ _ _ _ _ Hrun)) as Hes.
  pose proof (out_edges _ _ _ _ (traversal_returned _ _ _ _ _ Hrun')) as Hes'.
  split.
  - intros Hsub [e p] Hin. apply Hes'. apply Hes in Hin as (He & x & Hx & Hch).
    split; [done|]. exists x. split; [by apply Hsub|done].
  - intros Hsame. apply set_eq. intros [e p]. rewrite Hes, Hes'.
    split; intros (He & x & Hx & Hch); (split; [done|]); exists x;
      (split; [by apply Hsame|done]).
Qed.

Lemma edges_depend_on_start_set_witness :
  ∃ s es s' es',
    auth_chain_traversal 14 demo_store ["$topic"; "$member"] = Returned (s, es)
    ∧ auth_chain_traversal 14 demo_store ["$member"; "$topic"]
      = Returned (s', es')
    ∧ (["$topic"; "$member"] ⊆ ["$member"; "$topic"] → es ⊆ es')
    ∧ ((∀ x, x ∈ ["$topic"; "$member"] ↔ x ∈ ["$member"; "$topic"]) →
       es = es').
Proof.
  destruct (for_starts_total demo_store 14 ["$topic"; "$member"] 0 [] ∅)
    as (s & es & Hrun);
    [exact demo_store_acyclic
    |apply demo_store_fetchable; repeat constructor
    |vm_compute; lia|].
  destruct (for_starts_total demo_store 14 ["$member"; "$topic"] 0 [] ∅)
    as (s' & es' & Hrun');
    [exact demo_store_acyclic
    |apply demo_store_fetchable; repeat constructor
    |vm_compute; lia|].
  exists s, es, s', es'. split; [exact Hrun|]. split; [exact Hrun'|].
  exact (edges_depend_on_start_set demo_store 14 14 _ _ s s' es es' Hrun Hrun').
Defined.

(** ** The general [node] *)

(** X9. For keyword arguments that reach the node as attributes (none of
    them named [event], [name], [obj_dict] or [self]), [node] never replaces
    a keyword argument of its caller, a label or shape included; it hands
    every other keyword on unchanged; the node it makes always has a label, by
    default the event id and the type on two lines; and when the caller gave
    no shape the node gets one only for an [m.room.member] event, which is
    drawn as an oval. *)
Theorem node_keeps_kwargs (q : string → string) (event : EventBase)
    (kwargs : gmap string string) :
  plain_kwargs kwargs →
  let n := node_kwargs q event kwargs in
  pydot_name n = q (event_id event)
  ∧ (∀ k v, kwargs !! k = Some v → pydot_attributes n !! k = Some v)
  ∧ (∀ k, k ≠ "label" → k ≠ "shape" →
          pydot_attributes n !! k = kwargs !! k)
  ∧ is_Some (pydot_attributes n !! "label")
  ∧ (kwargs !! "label" = None →
     pydot_attributes n !! "label"
     = Some (event_id event ++ String (Ascii.ascii_of_nat 10) EmptyString
             ++ type event)%string)
  ∧ (kwargs !! "shape" = None →
     pydot_attributes n !! "shape"
     = if decide (type event = "m.room.member") then Some "oval" else None)
  ∧ Forall (λ k, pydot_attributes n !! k = None)
      ["event"; "name"; "obj_dict"; "self"].
Proof.
  intros Hplain. unfold node_kwargs. simpl.
  set (lbl := (event_id event ++ String (Ascii.ascii_of_nat 10) EmptyString
               ++ type event)%string).
  set (kw1 := match kwargs !! "label" with
              | Some _ => kwargs
              | None => <["label" := lbl]> kwargs
              end).
  assert (∀ k v, kwargs !! k = Some v → kw1 !! k = Some v) as Hkeep1.
  { intros k v Hk. unfold kw1. destruct (kwargs !! "label") eqn:Hl; [done|].
    rewrite lookup_insert_ne; [done|]. intros <-. congruence. }
  assert (∀ k, k ≠ "label" → kw1 !! k = kwargs !! k) as Hother1.
  { intros k Hk. unfold kw1. destruct (kwargs !! "label"); [done|].
    by rewrite lookup_insert_ne. }
  assert (is_Some (kw1 !! "label")) as Hlabel1.
  { unfold kw1. destruct (kwargs !! "label") eqn:Hl; [by rewrite Hl|].
    rewrite lookup_insert_eq. eauto. }
  assert (type_to_shape !! type event
          = if decide (type event = "m.room.member") then Some "oval"
            else None) as Hshape.
  { unfold type_to_shape. case_decide as Hty.
    - rewrite Hty. by rewrite lookup_singleton_eq.
    - by rewrite lookup_singleton_ne. }
  assert (∀ k, k ≠ "label" → k ≠ "shape" →
            match kw1 !! "shape" with
            | Some _ => kw1
            | None =>
              match type_to_shape !! type event with
              | Some sh => <["shape" := sh]> kw1
              | None => kw1
              end
            end !! k = kwargs !! k) as Hother2.
  { intros k Hk1 Hk2. rewrite <- Hother1 by done.
    destruct (kw1 !! "shape"); [done|].
    destruct (type_to_shape !! type event); [|done].
    by rewrite lookup_insert_ne. }
  split; [done|]. split; [|split; [exact Hother2|split; [|split; [|split]]]].
  - intros k v Hk. apply Hkeep1 in Hk.
    destruct (kw1 !! "shape") eqn:Hs; [done|].
    destruct (type_to_shape !! type event); [|done].
    rewrite lookup_insert_ne; [done|]. intros <-. congruence.
  - destruct (kw1 !! "shape"); [done|].
    destruct (type_to_shape !! type event); [|done].
    by rewrite lookup_insert_ne.
  - intros Hnone.
    assert (kw1 !! "label" = Some lbl) as Hl.
    { unfold kw1. rewrite Hnone. by rewrite lookup_insert_eq. }
    destruct (kw1 !! "shape"); [done|].
    destruct (type_to_shape !! type event); [|done].
    by rewrite lookup_insert_ne.
  - intros Hnone.
    assert (kw1 !! "shape" = None) as Hs by (by rewrite Hother1).
    rewrite Hs, Hshape. case_decide; [by rewrite lookup_insert_eq|done].
  - unfold plain_kwargs in Hplain. rewrite !Forall_cons in Hplain.
    destruct Hplain as (He & Hn & Ho & Hs & _).
    repeat (apply Forall_cons; split; [by rewrite Hother2|]).
    apply Forall_nil_2.
Qed.

Lemma node_keeps_kwargs_witness :
  let event := mk_event "$member" "m.room.member" ["$create"; "$power"] in
  let kwargs : gmap string string :=
    {[ "fillcolor" := "orangered"; "label" := "join" ]} in
  let n := node_kwargs id event kwargs in
  pydot_name n = id (event_id event)
  ∧ (∀ k v, kwargs !! k = Some v → pydot_attributes n !! k = Some v)
  ∧ (∀ k, k ≠ "label" → k ≠ "shape" →
          pydot_attributes n !! k = kwargs !! k)
  ∧ is_Some (pydot_attributes n !! "label")
  ∧ (kwargs !! "label" = None →
     pydot_attributes n !! "label"
     = Some (event_id event ++ String (Ascii.ascii_of_nat 10) EmptyString
             ++ type event)%string)
  ∧ (kwargs !! "shape" = None →
     pydot_attributes n !! "shape"
     = if decide (type event = "m.room.member") then Some "oval" else None)
  ∧ Forall (λ k, pydot_attributes n !! k = None)
      ["event"; "name"; "obj_dict"; "self"].
Proof.
  apply (node_keeps_kwargs id
           (mk_event "$member" "m.room.member" ["$create"; "$power"])
           {[ "fillcolor" := "orangered"; "label" := "join" ]}).
  unfold plain_kwargs. apply (bool_decide_unpack _). by vm_compute.
Defined.

(** X10. The node [dump_auth_chains] makes for an event, with only a fill
    colour given, is what the general [node] makes of that one keyword: the
    quoted id as name, the default label, the shape of the event type, the
    fill colour, and no other attribute. *)
Theorem node_of_fillcolor (q : string → string) (event : EventBase)
    (c : string) :
  let n := node_kwargs q event {[ "fillcolor" := c ]} in
  pydot_name n = node_name (node q event c)
  ∧ pydot_attributes n !! "label" = Some (label (node q event c))
  ∧ pydot_attributes n !! "shape" = shape (node q event c)
  ∧ pydot_attributes n !! "fillcolor" = Some (fillcolor (node q event c))
  ∧ (∀ k, k ≠ "label" → k ≠ "shape" → k ≠ "fillcolor" →
          pydot_attributes n !! k = None).
Proof.
  unfold node_kwargs, node, type_to_shape. simpl.
  rewrite lookup_singleton_ne by done.
  rewrite lookup_insert_ne, lookup_singleton_ne by done.
  case_decide as Hty.
  - rewrite Hty, lookup_singleton_eq. simpl.
    split; [done|]. split; [by rewrite lookup_insert_ne, lookup_insert_eq|].
    split; [by rewrite lookup_insert_eq|].
    split; [by rewrite !lookup_insert_ne, lookup_singleton_eq|].
    intros k ? ? ?. by rewrite !lookup_insert_ne, lookup_singleton_ne.
  - rewrite lookup_singleton_ne by done. simpl.
    split; [done|]. split; [by rewrite lookup_insert_eq|].
    split; [by rewrite lookup_insert_ne, lookup_singleton_ne|].
    split; [by rewrite lookup_insert_ne, lookup_singleton_eq|].
    intros k ? ? ?. by rewrite lookup_insert_ne, lookup_singleton_ne.
Qed.

(** ** Rendering after the traversal *)

Lemma add_nodes_cases (q : string → string) (store : DataStore)
    (items : pydict) (acc : list Node) :
  (∀ eid v, (eid, v) ∈ items → is_Some (store !! eid)) →
  (∃ ns, add_nodes q store items acc = Returned ns)
  ∨ (add_nodes q store items acc = Raised IndexError
     ∧ ∃ eid v, (eid, v) ∈ items ∧ py_index colors v = None).
Proof.
  revert acc. induction items as [|[eid0 v0] items IH]; intros acc Hst; simpl.
  - left. eauto.
  - destruct (Hst eid0 v0) as [ev Hev]; [by left|].
    unfold get_event. rewrite Hev.
    destruct (py_index colors v0) as [c|] eqn:Hc.
    + destruct (IH (acc ++ [node q ev c])) as [Hok|[Hbad (eid & v & Hin & Hv)]].
      * intros eid v Hin. eapply Hst. by right.
      * by left.
      * right. split; [done|]. exists eid, v. split; [by right|done].
    + right. split; [done|]. exists eid0, v0. split; [by left|done].
Qed.

Lemma py_index_colors_None_inv (v : Z) :
  (0 ≤ v)%Z → py_index colors v = None → (4 ≤ v)%Z.
Proof.
  intros Hv. unfold py_index. rewrite decide_True by done.
  intros Hnone%lookup_ge_None. simpl in Hnone. lia.
Qed.

(** X11. Once the traversal has returned, drawing the nodes cannot fail its
    own assertion (line 121): every key of [seen] is an event the traversal
    fetched.  Either the graph is returned, or the colour lookup raises
    [IndexError], and then some bitmap is 4 or more. *)
Theorem rendering_only_fails_on_colour (q : string → string) (fuel : nat)
    (store : DataStore) (starts : list string) (s : pydict)
    (es : gset (string * string)) :
  auth_chain_traversal fuel store starts = Returned (s, es) →
  (∃ g, dump_auth_chains q fuel store starts = Returned g)
  ∨ (dump_auth_chains q fuel store starts = Raised IndexError
     ∧ ∃ e v, (e, v) ∈ s ∧ (4 ≤ v)%Z).
Proof.
  intros Hrun. pose proof (traversal_returned _ _ _ _ _ Hrun) as Hinv.
  pose proof (out_wf _ _ _ _ Hinv) as Hwf.
  unfold dump_auth_chains. rewrite Hrun.
  destruct (add_nodes_cases q store s [])
    as [[ns ->]|[-> (e & v & Hin & Hv)]].
  - intros eid v Hin. apply (wf_stored _ _ Hwf).
    apply list_elem_of_fmap. by exists (eid, v).
  - left. eauto.
  - right. split; [done|]. exists e, v. split; [done|].
    apply py_index_colors_None_inv; [|done].
    rewrite <- (seen_entry_get store s e v Hwf Hin). apply (wf_nonneg _ _ Hwf).
Qed.

Lemma rendering_only_fails_on_colour_witness :
  ∃ s es,
    auth_chain_traversal 14 demo_store ["$topic"; "$member"; "$power"]
      = Returned (s, es)
    ∧ ((∃ g, dump_auth_chains id 14 demo_store
               ["$topic"; "$member"; "$power"] = Returned g)
       ∨ (dump_auth_chains id 14 demo_store ["$topic"; "$member"; "$power"]
            = Raised IndexError
          ∧ ∃ e v, (e, v) ∈ s ∧ (4 ≤ v)%Z)).
Proof.
  destruct (for_starts_total demo_store 14 ["$topic"; "$member"; "$power"]
              0 [] ∅) as (s & es & Hrun).
  - exact demo_store_acyclic.
  - apply demo_store_fetchable. repeat constructor.
  - vm_compute. lia.
  - exists s, es. split; [exact Hrun|].
    exact (rendering_only_fails_on_colour id 14 demo_store _ s es Hrun).
Defined.

(** ** What a round reads *)

Lemma loop_body_bit_only (store : DataStore) (i : nat) (s1 s2 : pydict)
    (es1 es2 : gset (string * string)) (stk : list (string * nat)) :
  (∀ e, marked i s1 e = marked i s2 e) →
  match loop_body store (bitmask_of i)
          {| seen := s1; edges := es1; stack := stk |},
        loop_body store (bitmask_of i)
          {| seen := s2; edges := es2; stack := stk |} with
  | inl a, inl b => a = b
  | inr a, inr b =>
    stack a = stack b ∧ ∀ e, marked i (seen a) e = marked i (seen b) e
  | _, _ => False
  end.
Proof.
  intros Hsame. unfold loop_body. simpl.
  destruct stk as [|[eid pindex] rest]; [done|].
  destruct (get_event store eid) as [event|]; [|done].
  case_decide.
  - simpl. split; [done|]. intros e.
    rewrite (marks_lor i eid s1 e i), (marks_lor i eid s2 e i).
    by case_decide.
  - destruct (auth_event_ids event !! pindex) as [pid|]; [|done].
    pose proof (land_bitmask (seen_get s1 pid) i) as H1.
    pose proof (land_bitmask (seen_get s2 pid) i) as H2.
    specialize (Hsame pid) as Hpid. unfold marked in Hpid.
    destruct (decide (Z.land (seen_get s1 pid) (bitmask_of i) ≠ 0%Z))
      as [Hd1|Hd1];
      destruct (decide (Z.land (seen_get s2 pid) (bitmask_of i) ≠ 0%Z))
        as [Hd2|Hd2]; simpl; try done.
    + apply H1 in Hd1. rewrite Hpid in Hd1. by apply H2 in Hd1.
    + apply H2 in Hd2. rewrite <- Hpid in Hd2. by apply H1 in Hd2.
Qed.

(** X12. A round for start [i] reads nothing of [seen] but bit [i], and
    nothing of [edges]: from two states with the same stack whose bitmaps
    agree on bit [i] it makes the same passes, pushes the same events and
    ends the same way.  Bits set by the rounds of earlier starts save it no
    work. *)
Theorem round_reads_only_its_bit (store : DataStore) (i : nat) (fuel : nat)
    (s1 s2 : pydict) (es1 es2 : gset (string * string))
    (stk : list (string * nat)) :
  (∀ e, marked i s1 e = marked i s2 e) →
  let st1 := {| seen := s1; edges := es1; stack := stk |} in
  let st2 := {| seen := s2; edges := es2; stack := stk |} in
  passes fuel store (bitmask_of i) st1 = passes fuel store (bitmask_of i) st2
  ∧ push_log fuel store (bitmask_of i) st1
    = push_log fuel store (bitmask_of i) st2
  ∧ match while_stack fuel store (bitmask_of i) st1,
          while_stack fuel store (bitmask_of i) st2 with
    | Returned a, Returned b =>
      ∀ e, marked i (seen a) e = marked i (seen b) e
    | Raised a, Raised b => a = b
    | OutOfFuel, OutOfFuel => True
    | _, _ => False
    end.
Proof.
  revert s1 s2 es1 es2 stk.
  induction fuel as [|fuel IH]; intros s1 s2 es1 es2 stk Hsame; simpl.
  - by destruct stk.
  - destruct stk as [|f rest]; [done|].
    pose proof (loop_body_bit_only store i s1 s2 es1 es2 (f :: rest) Hsame)
      as Hbody.
    unfold pushed.
    destruct (loop_body store (bitmask_of i)
                {| seen := s1; edges := es1; stack := f :: rest |})
      as [a|[sa ea ka]];
      destruct (loop_body store (bitmask_of i)
                  {| seen := s2; edges := es2; stack := f :: rest |})
        as [b|[sb eb kb]]; try done.
    simpl in Hbody. destruct Hbody as [-> Hsame'].
    destruct (IH sa sb ea eb kb Hsame') as (Hp & Hl & Hw). simpl in *.
    split; [by rewrite Hp|]. split; [by rewrite Hl|done].
Qed.

Lemma round_reads_only_its_bit_witness :
  let st1 := {| seen := [("$create", 1%Z)]; edges := ∅;
                stack := [("$member", 0)] |} in
  let st2 := {| seen := []; edges := ∅; stack := [("$member", 0)] |} in
  passes 14 demo_store (bitmask_of 1) st1
    = passes 14 demo_store (bitmask_of 1) st2
  ∧ push_log 14 demo_store (bitmask_of 1) st1
    = push_log 14 demo_store (bitmask_of 1) st2
  ∧ match while_stack 14 demo_store (bitmask_of 1) st1,
          while_stack 14 demo_store (bitmask_of 1) st2 with
    | Returned a, Returned b =>
      ∀ e, marked 1 (seen a) e = marked 1 (seen b) e
    | Raised a, Raised b => a = b
    | OutOfFuel, OutOfFuel => True
    | _, _ => False
    end.
Proof.
  apply (round_reads_only_its_bit demo_store 1 14 [("$create", 1%Z)] []).
  intros e. unfold marked, seen_get. simpl. by case_decide.
Defined.
